(** * kiro.rs, OpenAI compatibility layer: a shallow embedding in Rocq

    Sources: src/openai/stream.rs, src/openai/handlers.rs,
    src/openai/converter.rs, src/openai/types.rs, src/request_log.rs.

    Modelling conventions.
    - A Rust [String]/[&str] is valid UTF-8, so it is determined by its list
      of Unicode scalar values; we write it as [rstr := list N].  Every
      pattern the code searches for ("<thinking>", "</thinking>", "\n",
      "sonnet", ...) is ASCII, so a byte offset returned by [str::find] is a
      char boundary, and [find]/slicing by byte offset coincide with
      [find]/[take]/[drop] by scalar index.  Byte lengths ([str::len]) are
      computed with [utf8_len].
    - [i32] arithmetic is [Z] with two's-complement wrap-around written out
      (release build semantics); [f64] is Rocq's primitive binary64 [float],
      and the [f64 as i32] cast is the saturating truncation of Rust.
    - [HashMap]/[HashSet] are stdpp's [gmap]/[gset]. *)

From Stdlib Require Import ZArith String Ascii PrimFloat FloatOps SpecFloat.
From stdpp Require Import base list gmap sets.

Set Default Proof Using "Type".

(* ------------------------------------------------------------------ *)
(** ** Rust strings *)

Abbreviation rstr := (list N).

(** A Rocq (ASCII) string literal as a Rust string. *)
Definition lit (s : string) : rstr :=
  map (fun a => N_of_ascii a) (list_ascii_of_string s).

(** ['\n'] *)
Definition newline : N := 10%N.

(** [str::starts_with] *)
Fixpoint starts_with (p s : rstr) : bool :=
  match p, s with
  | [], _ => true
  | a :: p', b :: s' => N.eqb a b && starts_with p' s'
  | _ :: _, [] => false
  end.

(** [str::find]: index of the first occurrence of [p] in [s]. *)
Fixpoint find (p s : rstr) : option nat :=
  if starts_with p s then Some 0
  else match s with
       | [] => None
       | _ :: s' => S <$> find p s'
       end.

(** [str::contains] *)
Definition contains (s p : rstr) : bool :=
  match find p s with Some _ => true | None => false end.

(** [str::is_empty] *)
Definition is_empty (s : rstr) : bool :=
  match s with [] => true | _ => false end.

(** Number of bytes of the UTF-8 encoding of a scalar value. *)
Definition utf8_len (c : N) : nat :=
  if (c <? 128)%N then 1
  else if (c <? 2048)%N then 2
  else if (c <? 65536)%N then 3
  else 4.

(** [str::len] (bytes) *)
Definition byte_len (s : rstr) : nat := sum_list_with utf8_len s.

(* ------------------------------------------------------------------ *)
(** ** Machine integers *)

Definition i32_min : Z := (- 2 ^ 31)%Z.
Definition i32_max : Z := (2 ^ 31 - 1)%Z.

(** Two's-complement wrap-around to 32 bits. *)
Definition wrap_i32 (z : Z) : Z := ((z + 2 ^ 31) mod 2 ^ 32 - 2 ^ 31)%Z.

Definition i32_add (a b : Z) : Z := wrap_i32 (a + b).
Definition i32_mul (a b : Z) : Z := wrap_i32 (a * b).
(** Rust integer division truncates toward zero. *)
Definition i32_div (a b : Z) : Z := wrap_i32 (Z.quot a b).

(** [usize as i32] *)
Definition usize_as_i32 (n : nat) : Z := wrap_i32 (Z.of_nat n).

(** [f64 as i32]: truncation toward zero, saturating at the bounds of [i32],
    [NaN] mapped to [0]. *)
Definition f64_as_i32 (x : float) : Z :=
  match Prim2SF x with
  | S754_zero _ => 0%Z
  | S754_nan => 0%Z
  | S754_infinity false => i32_max
  | S754_infinity true => i32_min
  | S754_finite s m e =>
      let t := if (0 <=? e)%Z then Z.shiftl (Zpos m) e
               else Z.shiftr (Zpos m) (- e) in
      let t := if s then (- t)%Z else t in
      Z.max i32_min (Z.min i32_max t)
  end.

(* ------------------------------------------------------------------ *)
(** ** Thinking-tag filter (stream.rs and handlers.rs) *)

Definition thinking_open : rstr := lit "<thinking>".
Definition thinking_close : rstr := lit "</thinking>".

(** Number of newlines removed after a closing tag. *)
Definition trim_len_of (after : rstr) : nat :=
  if starts_with [newline; newline] after then 2
  else if starts_with [newline] after then 1
  else 0.

Module Stream.

(** The [while let Some(start) = result.find("<thinking>")] loop of
    [filter_thinking_tags] in stream.rs.  Every iteration shortens [result]
    (see [filter_loop_fuel_irrelevant] below), so [S (length content)]
    iterations are always enough. *)
Fixpoint filter_loop (fuel : nat) (result : rstr) : rstr :=
  match fuel with
  | O => result
  | S fuel' =>
      match find thinking_open result with
      | None => result
      | Some start =>
          match find thinking_close (drop start result) with
          | Some end_ =>
              let end_pos := start + end_ + length thinking_close in
              let after := drop end_pos result in
              let trim_len := trim_len_of after in
              filter_loop fuel' (take start result ++ drop (end_pos + trim_len) result)
          | None => take start result
          end
      end
  end.

Definition filter_thinking_tags (content : rstr) : rstr :=
  filter_loop (S (length content)) content.

End Stream.

Module Handlers.

(** The same loop, as written a second time in handlers.rs. *)
Fixpoint filter_loop (fuel : nat) (result : rstr) : rstr :=
  match fuel with
  | O => result
  | S fuel' =>
      match find thinking_open result with
      | None => result
      | Some start =>
          match find thinking_close (drop start result) with
          | Some end_ =>
              let end_pos := start + end_ + length thinking_close in
              let after := drop end_pos result in
              let trim_len := trim_len_of after in
              filter_loop fuel' (take start result ++ drop (end_pos + trim_len) result)
          | None => take start result
          end
      end
  end.

Definition filter_thinking_tags (content : rstr) : rstr :=
  filter_loop (S (length content)) content.

End Handlers.

(* ------------------------------------------------------------------ *)
(** ** Upstream events *)

(** Modelled from the spec: the typed upstream events of
    [crate::kiro::model::events] (not under src/), with the fields the
    OpenAI layer reads.  [OtherEvent] stands for the variants it ignores. *)
Record ToolUseEvent := mkToolUseEvent {
  tu_name : rstr;
  tu_tool_use_id : rstr;
  tu_input : rstr;
  tu_stop : bool
}.

Inductive Event :=
| AssistantResponse (content : rstr)
| ToolUse (tool_use : ToolUseEvent)
| ContextUsage (context_usage_percentage : float)
| Error (error_code error_message : rstr)
| Exception (exception_type message : rstr)
| OtherEvent.

(* ------------------------------------------------------------------ *)
(** ** Response types (types.rs) *)

Record Usage := mkUsage {
  prompt_tokens : Z;
  completion_tokens : Z;
  total_tokens : Z
}.

Record DeltaFunction := mkDeltaFunction {
  df_name : option rstr;
  arguments : option rstr
}.

Record DeltaToolCall := mkDeltaToolCall {
  dtc_index : Z;
  dtc_id : option rstr;
  call_type : option rstr;
  dtc_function : option DeltaFunction
}.

Record Delta := mkDelta {
  role : option rstr;
  delta_content : option rstr;
  tool_calls : option (list DeltaToolCall)
}.

(** [Delta::default()] *)
Definition delta_default : Delta := mkDelta None None None.

Record ChunkChoice := mkChunkChoice {
  cc_index : Z;
  delta : Delta;
  cc_finish_reason : option rstr
}.

Record ChatCompletionChunk := mkChunk {
  chunk_id : rstr;
  chunk_object : rstr;
  chunk_created : Z;
  chunk_model : rstr;
  chunk_choices : list ChunkChoice;
  chunk_usage : option Usage;
  chunk_system_fingerprint : option rstr
}.

(* ------------------------------------------------------------------ *)
(** ** Token estimation *)

Definition is_chinese (c : N) : bool := (19968 <=? c)%N && (c <=? 40959)%N.

(** [estimate_tokens] of stream.rs *)
Definition estimate_tokens (text : rstr) : Z :=
  let '(chinese_count, other_count) :=
    fold_left (fun '(cc, oc) c =>
                 if is_chinese c then (i32_add cc 1, oc) else (cc, i32_add oc 1))
              text (0%Z, 0%Z) in
  let chinese_tokens := i32_div (i32_add (i32_mul chinese_count 2) 2) 3 in
  let other_tokens := i32_div (i32_add other_count 3) 4 in
  Z.max (i32_add chinese_tokens other_tokens) 1.

(** [estimate_output_tokens] of handlers.rs (counts are [usize], cast at
    the end). *)
Definition estimate_output_tokens (text : rstr) : Z :=
  let chinese := length (filter (fun c => is_chinese c = true) text) in
  let other := length text - chinese in
  usize_as_i32 (Nat.max ((chinese * 2 + 2) / 3 + (other + 3) / 4) 1).

(** Tokens charged for a tool-input fragment: [(input.len() as i32 + 3) / 4]. *)
Definition tool_input_tokens (input : rstr) : Z :=
  i32_div (i32_add (usize_as_i32 (byte_len input)) 3) 4.

(** [CONTEXT_WINDOW_SIZE] *)
Definition CONTEXT_WINDOW_SIZE : Z := 200000%Z.

(** [(percentage * 200000.0 / 100.0) as i32] *)
Definition context_tokens (percentage : float) : Z :=
  f64_as_i32 (percentage * 200000 / 100)%float.

Definition ContentLengthExceededException : rstr :=
  lit "ContentLengthExceededException".

(* ------------------------------------------------------------------ *)
(** ** Streaming transcoder (stream.rs) *)

Record StreamContext := mkStreamContext {
  sc_model : rstr;
  response_id : rstr;
  created : Z;
  input_tokens : Z;
  context_input_tokens : option Z;
  output_tokens : Z;
  initial_sent : bool;
  has_tool_use : bool;
  tool_indices : gmap rstr Z;
  next_tool_index : Z;
  include_usage : bool;
  sc_finish_reason : option rstr
}.

(** [StreamContext::new]; the UUID and the clock are inputs. *)
Definition stream_context_new (model : rstr) (input_tokens : Z)
    (include_usage : bool) (response_id : rstr) (created : Z) : StreamContext :=
  mkStreamContext model response_id created input_tokens None 0%Z false false
    ∅ 0%Z include_usage None.

Definition set_output_tokens (ctx : StreamContext) (n : Z) : StreamContext :=
  match ctx with
  | mkStreamContext m r c it cit _ is htu ti nti iu fr =>
      mkStreamContext m r c it cit n is htu ti nti iu fr
  end.

Definition set_context_input_tokens (ctx : StreamContext) (o : option Z) : StreamContext :=
  match ctx with
  | mkStreamContext m r c it _ ot is htu ti nti iu fr =>
      mkStreamContext m r c it o ot is htu ti nti iu fr
  end.

Definition set_finish_reason (ctx : StreamContext) (o : option rstr) : StreamContext :=
  match ctx with
  | mkStreamContext m r c it cit ot is htu ti nti iu _ =>
      mkStreamContext m r c it cit ot is htu ti nti iu o
  end.

Definition set_initial_sent (ctx : StreamContext) (b : bool) : StreamContext :=
  match ctx with
  | mkStreamContext m r c it cit ot _ htu ti nti iu fr =>
      mkStreamContext m r c it cit ot b htu ti nti iu fr
  end.

Definition set_has_tool_use (ctx : StreamContext) (b : bool) : StreamContext :=
  match ctx with
  | mkStreamContext m r c it cit ot is _ ti nti iu fr =>
      mkStreamContext m r c it cit ot is b ti nti iu fr
  end.

Definition set_tool_indices (ctx : StreamContext) (ti : gmap rstr Z) (nti : Z)
    : StreamContext :=
  match ctx with
  | mkStreamContext m r c it cit ot is htu _ _ iu fr =>
      mkStreamContext m r c it cit ot is htu ti nti iu fr
  end.

(** A chunk of this stream with one choice carrying [d] and [fr]. *)
Definition stream_chunk (ctx : StreamContext) (d : Delta) (fr : option rstr)
    (usage : option Usage) (choices_present : bool) : ChatCompletionChunk :=
  mkChunk (response_id ctx) (lit "chat.completion.chunk") (created ctx)
    (sc_model ctx)
    (if choices_present then [mkChunkChoice 0 d fr] else [])
    usage None.

(** [generate_initial_chunk] *)
Definition generate_initial_chunk (ctx : StreamContext)
    : StreamContext * ChatCompletionChunk :=
  let ctx := set_initial_sent ctx true in
  (ctx, stream_chunk ctx (mkDelta (Some (lit "assistant")) None None) None None true).

(** [process_assistant_response] *)
Definition process_assistant_response (ctx : StreamContext) (content : rstr)
    : StreamContext * list ChatCompletionChunk :=
  if is_empty content then (ctx, [])
  else
    let ctx := set_output_tokens ctx (i32_add (output_tokens ctx) (estimate_tokens content)) in
    let filtered_content := Stream.filter_thinking_tags content in
    if is_empty filtered_content then (ctx, [])
    else (ctx, [stream_chunk ctx (mkDelta None (Some filtered_content) None) None None true]).

(** [process_tool_use] *)
Definition process_tool_use (ctx : StreamContext) (tool_use : ToolUseEvent)
    : StreamContext * list ChatCompletionChunk :=
  let ctx := set_has_tool_use ctx true in
  let id := tu_tool_use_id tool_use in
  let input := tu_input tool_use in
  (* get or assign the tool index *)
  let '(tool_index, ctx) :=
    match tool_indices ctx !! id with
    | Some idx => (idx, ctx)
    | None =>
        let idx := next_tool_index ctx in
        (idx, set_tool_indices ctx (<[id := idx]> (tool_indices ctx))
                (i32_add (next_tool_index ctx) 1))
    end in
  let contains_key := match tool_indices ctx !! id with Some _ => true | None => false end in
  let get_is_index := match tool_indices ctx !! id with
                      | Some i => Z.eqb i tool_index
                      | None => false
                      end in
  let is_first_chunk := negb contains_key || (get_is_index && is_empty input) in
  let ctx := if negb (is_empty input)
             then set_output_tokens ctx (i32_add (output_tokens ctx) (tool_input_tokens input))
             else ctx in
  let tool_call :=
    if is_first_chunk || is_empty input then
      mkDeltaToolCall tool_index (Some id) (Some (lit "function"))
        (Some (mkDeltaFunction (Some (tu_name tool_use))
                 (if is_empty input then None else Some input)))
    else
      mkDeltaToolCall tool_index None None
        (Some (mkDeltaFunction None (Some input))) in
  (ctx, [stream_chunk ctx (mkDelta None None (Some [tool_call])) None None true]).

(** [process_kiro_event] *)
Definition process_kiro_event (ctx : StreamContext) (event : Event)
    : StreamContext * list ChatCompletionChunk :=
  match event with
  | AssistantResponse content => process_assistant_response ctx content
  | ToolUse tool_use => process_tool_use ctx tool_use
  | ContextUsage p =>
      let actual_input_tokens := context_tokens p in
      (set_context_input_tokens ctx (Some actual_input_tokens), [])
  | Error _ _ => (ctx, [])
  | Exception exception_type _ =>
      if bool_decide (exception_type = ContentLengthExceededException)
      then (set_finish_reason ctx (Some (lit "length")), [])
      else (ctx, [])
  | OtherEvent => (ctx, [])
  end.

(** [unwrap_or] *)
Definition unwrap_or {A} (o : option A) (d : A) : A :=
  match o with Some a => a | None => d end.

(** [generate_final_chunk] *)
Definition generate_final_chunk (ctx : StreamContext) : list ChatCompletionChunk :=
  let finish_reason :=
    match sc_finish_reason ctx with
    | Some reason => reason
    | None => if has_tool_use ctx then lit "tool_calls" else lit "stop"
    end in
  let c1 := stream_chunk ctx delta_default (Some finish_reason) None true in
  if include_usage ctx then
    let final_input_tokens := unwrap_or (context_input_tokens ctx) (input_tokens ctx) in
    [c1; stream_chunk ctx delta_default None
           (Some (mkUsage final_input_tokens (output_tokens ctx)
                    (i32_add final_input_tokens (output_tokens ctx)))) false]
  else [c1].

(** [get_usage] *)
Definition get_usage (ctx : StreamContext) : Usage :=
  let final_input_tokens := unwrap_or (context_input_tokens ctx) (input_tokens ctx) in
  mkUsage final_input_tokens (output_tokens ctx)
    (i32_add final_input_tokens (output_tokens ctx)).

(** Feeding decoded events to the context, collecting the chunks in order. *)
Fixpoint process_events (ctx : StreamContext) (events : list Event)
    : StreamContext * list ChatCompletionChunk :=
  match events with
  | [] => (ctx, [])
  | ev :: evs =>
      let '(ctx, cs) := process_kiro_event ctx ev in
      let '(ctx, cs') := process_events ctx evs in
      (ctx, cs ++ cs')
  end.

(** The chunks of [create_sse_stream] (before SSE framing) for a body that
    decodes to [events] and then ends: the initial chunk, the chunks of
    every event, the final chunks.  Returns also the context at the end. *)
Definition stream_response (model : rstr) (input_tokens : Z) (include_usage : bool)
    (response_id : rstr) (created : Z) (events : list Event)
    : StreamContext * list ChatCompletionChunk :=
  let ctx := stream_context_new model input_tokens include_usage response_id created in
  let '(ctx, initial_chunk) := generate_initial_chunk ctx in
  let '(ctx, cs) := process_events ctx events in
  (ctx, initial_chunk :: cs ++ generate_final_chunk ctx).

(* ------------------------------------------------------------------ *)
(** ** Non-streaming collector (handlers.rs, [handle_non_stream_request]) *)

Record FunctionCall := mkFunctionCall { fc_name : rstr; fc_arguments : rstr }.

Record ToolCall := mkToolCall {
  tc_id : rstr;
  tc_call_type : rstr;
  tc_function : FunctionCall
}.

Record Collector := mkCollector {
  text_content : rstr;
  col_tool_calls : list ToolCall;
  finish_reason : rstr;
  col_context_input_tokens : option Z;
  col_output_tokens : Z;
  tool_json_buffers : gmap rstr (rstr * rstr)
}.

Definition collector_init : Collector :=
  mkCollector [] [] (lit "stop") None 0%Z ∅.

(** One iteration of the [for result in decoder.decode_iter()] loop. *)
Definition collect_event (st : Collector) (event : Event) : Collector :=
  match st with
  | mkCollector text tcs fr cit ot bufs =>
    match event with
    | AssistantResponse content =>
        let filtered := Handlers.filter_thinking_tags content in
        mkCollector (text ++ filtered) tcs fr cit
          (i32_add ot (estimate_output_tokens content)) bufs
    | ToolUse tool_use =>
        let fr := lit "tool_calls" in
        let id := tu_tool_use_id tool_use in
        let entry0 := unwrap_or (bufs !! id) (tu_name tool_use, []) in
        let entry := (entry0.1, entry0.2 ++ tu_input tool_use) in
        let bufs := <[id := entry]> bufs in
        let tcs := if tu_stop tool_use
                   then tcs ++ [mkToolCall id (lit "function") (mkFunctionCall entry.1 entry.2)]
                   else tcs in
        mkCollector text tcs fr cit (i32_add ot (tool_input_tokens (tu_input tool_use))) bufs
    | ContextUsage p =>
        mkCollector text tcs fr (Some (context_tokens p)) ot bufs
    | Exception exception_type _ =>
        let fr := if bool_decide (exception_type = ContentLengthExceededException)
                  then lit "length" else fr in
        mkCollector text tcs fr cit ot bufs
    | _ => st
    end
  end.

Record ResponseMessage := mkResponseMessage {
  rm_role : rstr;
  rm_content : option rstr;
  rm_tool_calls : option (list ToolCall)
}.

Record Choice := mkChoice {
  choice_index : Z;
  message : ResponseMessage;
  choice_finish_reason : option rstr
}.

Record ChatCompletionResponse := mkResponse {
  resp_id : rstr;
  resp_object : rstr;
  resp_created : Z;
  resp_model : rstr;
  resp_choices : list Choice;
  resp_usage : option Usage;
  resp_system_fingerprint : option rstr
}.

(** The response body built by [handle_non_stream_request] from the decoded
    events; the UUID and the clock are inputs. *)
Definition non_stream_response (model : rstr) (input_tokens : Z) (id : rstr)
    (created : Z) (events : list Event) : ChatCompletionResponse :=
  let st := fold_left collect_event events collector_init in
  let final_input_tokens := unwrap_or (col_context_input_tokens st) input_tokens in
  mkResponse id (lit "chat.completion") created model
    [mkChoice 0
       (mkResponseMessage (lit "assistant")
          (if is_empty (text_content st) then None else Some (text_content st))
          (match col_tool_calls st with [] => None | tcs => Some tcs end))
       (Some (finish_reason st))]
    (Some (mkUsage final_input_tokens (col_output_tokens st)
             (i32_add final_input_tokens (col_output_tokens st))))
    None.

(* ------------------------------------------------------------------ *)
(** ** Fallible code: [Result<A, E>] as a monad *)

Inductive result (E A : Type) := Ok (a : A) | Err (e : E).
Arguments Ok {E A} a.
Arguments Err {E A} e.

Global Instance result_ret E : MRet (result E) := fun A a => Ok a.
Global Instance result_bind E : MBind (result E) :=
  fun A B k m => match m with Ok a => k a | Err e => Err e end.

(* ------------------------------------------------------------------ *)
(** ** Request types (types.rs) *)

#[local] Set Warnings "-register-all".

(** [serde_json::Value]; numbers are kept as integers, nothing here reads
    them. *)
Inductive json :=
| JNull
| JBool (b : bool)
| JNumber (n : Z)
| JString (s : rstr)
| JArray (xs : list json)
| JObject (fields : list (rstr * json)).

Record ImageUrl := mkImageUrl { url : rstr; detail : option rstr }.

Inductive ContentPart :=
| PartText (text : rstr)
| PartImageUrl (image_url : ImageUrl).

Inductive MessageContent :=
| Text (s : rstr)
| Parts (parts : list ContentPart).

Record ChatMessage := mkChatMessage {
  cm_role : rstr;
  cm_content : option MessageContent;
  cm_tool_calls : option (list ToolCall);
  tool_call_id : option rstr;
  cm_name : option rstr
}.

Record FunctionDefinition := mkFunctionDefinition {
  fd_name : rstr;
  description : option rstr;
  parameters : option (list (rstr * json))   (* HashMap<String, Value> *)
}.

Record Tool := mkTool { tool_type : rstr; tool_function : FunctionDefinition }.

(** The fields of [ChatCompletionRequest] read by the handler and the
    converter ([temperature], [top_p], [tool_choice] and [user] are read by
    neither). *)
Record ChatCompletionRequest := mkRequest {
  req_model : rstr;
  messages : list ChatMessage;
  max_tokens : option Z;
  max_completion_tokens : option Z;
  stream : option bool;
  req_tools : option (list Tool);
  stream_options : option (option bool)   (* StreamOptions { include_usage } *)
}.

(** [effective_max_tokens] *)
Definition effective_max_tokens (req : ChatCompletionRequest) : Z :=
  unwrap_or (match max_completion_tokens req with
             | Some n => Some n
             | None => max_tokens req
             end) 4096%Z.

(** [is_stream] *)
Definition is_stream (req : ChatCompletionRequest) : bool := unwrap_or (stream req) false.

(* ------------------------------------------------------------------ *)
(** ** Kiro request types *)

(** Modelled from the spec: the Kiro request model of
    [crate::kiro::model::requests] (not under src/): the fields the
    converter sets, and its constructors and builders as plain record
    construction. *)
Record KiroImage := mkKiroImage { image_format : rstr; image_bytes : rstr }.

Record ToolUseEntry := mkToolUseEntry {
  tool_use_id : rstr;
  tue_name : rstr;
  tue_input : json
}.

Record UserMessage := mkUserMessage {
  um_content : rstr;
  um_model_id : rstr;
  um_images : option (list KiroImage)
}.

Record AssistantMessage := mkAssistantMessage {
  am_content : rstr;
  tool_uses : option (list ToolUseEntry)
}.

Inductive Message :=
| MUser (user_input_message : UserMessage)
| MAssistant (assistant_response_message : AssistantMessage).

Record ToolResult := mkToolResult {
  tr_tool_use_id : rstr;
  tr_content : rstr;
  tr_status : rstr
}.

(** [ToolResult::success] *)
Definition tool_result_success (id content : rstr) : ToolResult :=
  mkToolResult id content (lit "success").

Record ToolSpecification := mkToolSpecification {
  ts_name : rstr;
  ts_description : rstr;
  input_schema : json   (* InputSchema::from_json *)
}.

Record KiroTool := mkKiroTool { tool_specification : ToolSpecification }.

Record UserInputMessageContext := mkContext {
  ctx_tools : option (list KiroTool);
  ctx_tool_results : option (list ToolResult)
}.

Record UserInputMessage := mkUserInputMessage {
  uim_content : rstr;
  uim_model_id : rstr;
  uim_images : option (list KiroImage);
  user_input_message_context : option UserInputMessageContext;
  uim_origin : option rstr
}.

Record ConversationState := mkConversationState {
  conversation_id : rstr;
  agent_continuation_id : option rstr;
  agent_task_type : option rstr;
  chat_trigger_type : option rstr;
  current_message : UserInputMessage;   (* CurrentMessage { user_input_message } *)
  history : list Message
}.

Record ConversionResult := mkConversionResult {
  conversation_state : ConversationState;
  original_model : rstr
}.

Inductive ConversionError :=
| UnsupportedModel (model : rstr)
| EmptyMessages
| InvalidImageUrl (url : rstr).

(* ------------------------------------------------------------------ *)
(** ** Converter (converter.rs) *)

(** [str::to_lowercase], on ASCII letters.  Unicode lowercasing maps no
    non-ASCII scalar value to a letter of "sonnet" or "opus" (the only ones
    it maps into ASCII are U+212A to 'k' and U+0130 to 'i' followed by
    U+0307), so the
    tests of [map_model] are decided the same way. *)
Definition to_lowercase_char (c : N) : N :=
  if (65 <=? c)%N && (c <=? 90)%N then (c + 32)%N else c.
Definition to_lowercase (s : rstr) : rstr := map to_lowercase_char s.

(** [map_model] *)
Definition map_model (model : rstr) : option rstr :=
  let model_lower := to_lowercase model in
  if contains model_lower (lit "sonnet") then Some (lit "claude-sonnet-4.5")
  else if contains model_lower (lit "opus") then Some (lit "claude-opus-4.5")
  else Some (lit "claude-haiku-4.5").

(** [join(sep)] *)
Fixpoint join (sep : rstr) (xs : list rstr) : rstr :=
  match xs with
  | [] => []
  | [x] => x
  | x :: xs => x ++ sep ++ join sep xs
  end.

(** [extract_text_content] *)
Definition extract_text_content (content : option MessageContent) : rstr :=
  match content with
  | Some (Text s) => s
  | Some (Parts parts) =>
      join [newline] (omap (fun p => match p with PartText t => Some t | _ => None end) parts)
  | None => []
  end.

(** [splitn(2, ',')] as (before the first comma, after it). *)
Definition split_first_comma (s : rstr) : option (rstr * rstr) :=
  match find (lit ",") s with
  | Some i => Some (take i s, drop (S i) s)
  | None => None
  end.

(** [parse_image_url] *)
Definition parse_image_url (u : rstr) : result ConversionError (option KiroImage) :=
  if starts_with (lit "data:") u then
    match split_first_comma u with
    | None => Err (InvalidImageUrl u)
    | Some (header, data) =>
        if contains header (lit "image/png") then Ok (Some (mkKiroImage (lit "png") data))
        else if contains header (lit "image/jpeg") || contains header (lit "image/jpg")
        then Ok (Some (mkKiroImage (lit "jpeg") data))
        else if contains header (lit "image/gif") then Ok (Some (mkKiroImage (lit "gif") data))
        else if contains header (lit "image/webp") then Ok (Some (mkKiroImage (lit "webp") data))
        else Err (InvalidImageUrl u)
    end
  else if starts_with (lit "http://") u || starts_with (lit "https://") u then Ok None
  else Err (InvalidImageUrl u).

(** [extract_content_with_images] *)
Definition extract_content_with_images (content : option MessageContent)
    : result ConversionError (rstr * list KiroImage) :=
  match content with
  | Some (Text s) => Ok (s, [])
  | Some (Parts parts) =>
      '(texts, images) ← fold_left (fun acc part =>
          '(texts, images) ← acc;
          match part with
          | PartText t => Ok (texts ++ [t], images)
          | PartImageUrl iu =>
              img ← parse_image_url (url iu);
              Ok (texts, match img with Some im => images ++ [im] | None => images end)
          end) parts (Ok ([], []));
      Ok (join [newline] texts, images)
  | None => Ok ([], [])
  end.

(** [merge_user_buffer] *)
Definition merge_user_buffer (buffer : list (rstr * list KiroImage)) (model_id : rstr)
    : UserMessage :=
  let content_parts := omap (fun '(text, _) => if is_empty text then None else Some text) buffer in
  let all_images := concat (map snd buffer) in
  mkUserMessage (join [newline] content_parts) model_id
    (if bool_decide (all_images = []) then None else Some all_images).

(** [convert_assistant_message]; [json_from_str] is [serde_json::from_str]. *)
Definition convert_assistant_message (json_from_str : rstr -> option json)
    (msg : ChatMessage) : result ConversionError AssistantMessage :=
  let text_content := extract_text_content (cm_content msg) in
  let tool_uses :=
    match cm_tool_calls msg with
    | Some calls =>
        map (fun call => mkToolUseEntry (tc_id call) (fc_name (tc_function call))
                           (unwrap_or (json_from_str (fc_arguments (tc_function call)))
                              (JObject []))) calls
    | None => []
    end in
  Ok (mkAssistantMessage text_content (if bool_decide (tool_uses = []) then None else Some tool_uses)).

(** The state of the loop of [process_messages]. *)
Record PMState := mkPMState {
  system_content : rstr;
  pm_history : list Message;
  last_user_content : rstr;
  last_images : list KiroImage;
  tool_results : list ToolResult;
  user_buffer : list (rstr * list KiroImage)
}.

Definition role_is (msg : ChatMessage) (r : string) : bool :=
  bool_decide (cm_role msg = lit r).

(** One iteration of [for (i, msg) in messages.iter().enumerate()]. *)
Definition process_message (json_from_str : rstr -> option json) (model_id : rstr)
    (n : nat) (st : PMState) (i : nat) (msg : ChatMessage)
    : result ConversionError PMState :=
  match st with
  | mkPMState sc h luc li trs ub =>
    let is_last := Nat.eqb i (n - 1) in
    if role_is msg "system" then
      let text := extract_text_content (cm_content msg) in
      let sc := if is_empty sc then sc else sc ++ [newline] in
      Ok (mkPMState (sc ++ text) h luc li trs ub)
    else if role_is msg "user" then
      '(text, images) ← extract_content_with_images (cm_content msg);
      if is_last then Ok (mkPMState sc h text images trs ub)
      else Ok (mkPMState sc h luc li trs (ub ++ [(text, images)]))
    else if role_is msg "assistant" then
      let '(h, ub) :=
        if bool_decide (ub = []) then (h, ub)
        else (h ++ [MUser (merge_user_buffer ub model_id)], []) in
      assistant ← convert_assistant_message json_from_str msg;
      Ok (mkPMState sc (h ++ [MAssistant assistant]) luc li trs ub)
    else if role_is msg "tool" then
      match tool_call_id msg with
      | Some id =>
          let content := extract_text_content (cm_content msg) in
          Ok (mkPMState sc h luc li (trs ++ [tool_result_success id content]) ub)
      | None => Ok st
      end
    else Ok st
  end.

Fixpoint process_loop (json_from_str : rstr -> option json) (model_id : rstr)
    (n : nat) (st : PMState) (i : nat) (msgs : list ChatMessage)
    : result ConversionError PMState :=
  match msgs with
  | [] => Ok st
  | msg :: msgs =>
      st ← process_message json_from_str model_id n st i msg;
      process_loop json_from_str model_id n st (S i) msgs
  end.

(** [process_messages]: (system_content, history, last_user_content,
    last_images, tool_results). *)
Definition process_messages (json_from_str : rstr -> option json)
    (messages : list ChatMessage) (model_id : rstr)
    : result ConversionError
        (rstr * list Message * rstr * list KiroImage * list ToolResult) :=
  st ← process_loop json_from_str model_id (length messages)
         (mkPMState [] [] [] [] [] []) 0 messages;
  let h := if bool_decide (user_buffer st = []) then pm_history st
           else pm_history st ++
                  [MUser (merge_user_buffer (user_buffer st) model_id);
                   MAssistant (mkAssistantMessage (lit "OK") None)] in
  Ok (system_content st, h, last_user_content st, last_images st, tool_results st).

#[local] Set Warnings "-abstract-large-number".

(** [char_indices]: byte offset and scalar value of every char. *)
Fixpoint char_indices_from (off : nat) (s : rstr) : list (nat * N) :=
  match s with
  | [] => []
  | c :: s' => (off, c) :: char_indices_from (off + utf8_len c) s'
  end.
Definition char_indices (s : rstr) : list (nat * N) := char_indices_from 0 s.

(** [&s[..idx]] for a byte offset [idx] on a char boundary. *)
Fixpoint slice_to_from (off idx : nat) (s : rstr) : rstr :=
  match s with
  | [] => []
  | c :: s' => if off <? idx then c :: slice_to_from (off + utf8_len c) idx s' else []
  end.
Definition slice_to (s : rstr) (idx : nat) : rstr := slice_to_from 0 idx s.

(** The schema used when a tool has no [parameters]. *)
Definition default_input_schema : json :=
  JObject [(lit "type", JString (lit "object"));
           (lit "properties", JObject []);
           (lit "required", JArray [])].

(** [convert_tools] *)
Definition convert_tools (tools : option (list Tool)) : list KiroTool :=
  match tools with
  | None => []
  | Some tools =>
      map (fun t =>
        let description := unwrap_or (description (tool_function t)) [] in
        let description :=
          match char_indices description !! 10000 with
          | Some (idx, _) => slice_to description idx
          | None => description
          end in
        let input_schema :=
          match parameters (tool_function t) with
          | Some p => JObject p
          | None => default_input_schema
          end in
        mkKiroTool (mkToolSpecification (fd_name (tool_function t)) description input_schema))
      (filter (fun t => tool_type t = lit "function") tools)
  end.

Definition message_tool_uses (m : Message) : list ToolUseEntry :=
  match m with
  | MAssistant a => unwrap_or (tool_uses a) []
  | MUser _ => []
  end.

(** [collect_history_tool_names] *)
Definition collect_history_tool_names (history : list Message) : list rstr :=
  fold_left (fun names tu =>
               if bool_decide (tue_name tu ∈ names) then names else names ++ [tue_name tu])
    (concat (map message_tool_uses history)) [].

(** [create_placeholder_tool] *)
Definition create_placeholder_tool (name : rstr) : KiroTool :=
  mkKiroTool (mkToolSpecification name (lit "Tool used in conversation history")
    (JObject [(lit "$schema", JString (lit "http://json-schema.org/draft-07/schema#"));
              (lit "type", JString (lit "object"));
              (lit "properties", JObject []);
              (lit "required", JArray []);
              (lit "additionalProperties", JBool true)])).

(** The [tool_use_id]s of the assistant entries of a history. *)
Definition history_tool_use_ids (history : list Message) : list rstr :=
  map tool_use_id (concat (map message_tool_uses history)).

(** [validate_tool_pairing] *)
Definition validate_tool_pairing (history : list Message) (tool_results : list ToolResult)
    : list ToolResult :=
  let valid_tool_use_ids : gset rstr := list_to_set (history_tool_use_ids history) in
  (fold_left (fun '(filtered, valid) result =>
      if bool_decide (tr_tool_use_id result ∈ valid)
      then (filtered ++ [result], valid ∖ {[tr_tool_use_id result]})
      else (filtered, valid))
    tool_results ([], valid_tool_use_ids)).1.

(** [convert_request]; the two UUIDs are inputs. *)
Definition convert_request (json_from_str : rstr -> option json)
    (conversation_id agent_continuation_id : rstr) (req : ChatCompletionRequest)
    : result ConversionError ConversionResult :=
  model_id ← match map_model (req_model req) with
             | Some m => Ok m
             | None => Err (UnsupportedModel (req_model req))
             end;
  if bool_decide (messages req = []) then Err EmptyMessages else
  '(system_content, history, last_user_content, last_images, tool_results)
     ← process_messages json_from_str (messages req) model_id;
  let tools := convert_tools (req_tools req) in
  let history_tool_names := collect_history_tool_names history in
  let existing_tool_names :=
    map (fun t => to_lowercase (ts_name (tool_specification t))) tools in
  let tools := tools ++ map create_placeholder_tool
     (filter (fun n => to_lowercase n ∉ existing_tool_names) history_tool_names) in
  let validated_tool_results := validate_tool_pairing history tool_results in
  let context := mkContext (if bool_decide (tools = []) then None else Some tools)
                   (if bool_decide (validated_tool_results = []) then None
                    else Some validated_tool_results) in
  let user_input := mkUserInputMessage last_user_content model_id
                      (if bool_decide (last_images = []) then None else Some last_images)
                      (Some context) (Some (lit "AI_EDITOR")) in
  let full_history :=
    (if is_empty system_content then []
     else [MUser (mkUserMessage system_content model_id None);
           MAssistant (mkAssistantMessage (lit "I will follow these instructions.") None)])
    ++ history in
  Ok (mkConversionResult
        (mkConversationState conversation_id (Some agent_continuation_id)
           (Some (lit "vibe")) (Some (lit "MANUAL")) user_input full_history)
        (req_model req)).

(* ------------------------------------------------------------------ *)
(** ** The finish-reason and usage policies, in the spec's words *)

Definition is_length_exception (ev : Event) : bool :=
  match ev with
  | Exception t _ => bool_decide (t = ContentLengthExceededException)
  | _ => false
  end.

Definition is_tool_use (ev : Event) : bool :=
  match ev with ToolUse _ => true | _ => false end.

(** "length" if a ContentLengthExceededException was observed, else
    "tool_calls" if a ToolUse was observed, else "stop". *)
Definition spec_finish_reason (events : list Event) : rstr :=
  if existsb is_length_exception events then lit "length"
  else if existsb is_tool_use events then lit "tool_calls"
  else lit "stop".

(** The percentage of the last [ContextUsage] event, if any. *)
Definition last_context_usage (events : list Event) : option float :=
  fold_left (fun acc ev => match ev with ContextUsage p => Some p | _ => acc end)
    events None.

(** The spec's [round(percentage * 200000 / 100)] for the exact value of a
    non-negative finite [percentage] (rounding halves up). *)
Definition spec_round_prompt_tokens (percentage : float) : option Z :=
  match Prim2SF percentage with
  | S754_zero _ => Some 0%Z
  | S754_finite false m e =>
      if (0 <=? e)%Z then Some (Zpos m * 2 ^ e * 2000)%Z
      else Some ((2 * Zpos m * 2000 + 2 ^ (- e)) / 2 ^ (1 - e))%Z
  | _ => None
  end.

(** The tool-call deltas carried by a list of chunks. *)
Definition chunk_tool_calls (cs : list ChatCompletionChunk)
    : list (option (list DeltaToolCall)) :=
  concat (map (fun c => map (fun ch => tool_calls (delta ch)) (chunk_choices c)) cs).

(** The spec's two-fragment example: [ToolUse{id:"a", name:"sum",
    input:"{\"x\":"}] then [ToolUse{id:"a", name:"sum", input:"1}"}]. *)
Definition quote : N := 34%N.
Definition frag1 : rstr := lit "{" ++ [quote] ++ lit "x" ++ [quote] ++ lit ":".
Definition frag2 : rstr := lit "1}".
Definition two_fragments : list Event :=
  [ToolUse (mkToolUseEvent (lit "sum") (lit "a") frag1 false);
   ToolUse (mkToolUseEvent (lit "sum") (lit "a") frag2 true)].

(** "[s] contains [p] case-insensitively": some substring of [s] equals
    [p] up to case. *)
Definition ci_contains (s p : rstr) : Prop :=
  exists i, i + length p <= length s /\
            to_lowercase (take (length p) (drop i s)) = to_lowercase p.

(** Histories made of blocks [assistant] and [user; assistant]: every user
    entry is immediately followed by an assistant entry. *)
Inductive paired : list Message -> Prop :=
| paired_nil : paired []
| paired_assistant a h : paired h -> paired (MAssistant a :: h)
| paired_user u a h : paired h -> paired (MUser u :: MAssistant a :: h).

Definition message_role (m : Message) : rstr :=
  match m with MUser _ => lit "user" | MAssistant _ => lit "assistant" end.

Definition text_message (role text : string) : ChatMessage :=
  mkChatMessage (lit role) (Some (Text (lit text))) None None None.

(** A request whose assistant turn is split over two messages. *)
Definition two_assistant_request : ChatCompletionRequest :=
  mkRequest (lit "claude-sonnet-4") 
    [text_message "user" "hi"; text_message "assistant" "Hello.";
     text_message "assistant" "How can I help?"; text_message "user" "Sum 1 and 2."]
    None None None None None.

(** A request opening with an assistant message. *)
Definition assistant_first_request : ChatCompletionRequest :=
  mkRequest (lit "gpt-4o")
    [text_message "assistant" "Welcome."; text_message "user" "hi"]
    None None None None None.

(* ------------------------------------------------------------------ *)
(** ** The request log ([request_log.rs]) and its writer, [chat_completions] *)

(** [MAX_LOG_ENTRIES] *)
Definition MAX_LOG_ENTRIES : nat := 50.

(** [RequestLogEntry] *)
Record RequestLogEntry := mkRequestLogEntry {
  log_id : rstr;
  timestamp : rstr;
  log_model : rstr;
  log_max_tokens : Z;
  log_stream : bool;
  message_count : nat;
  credential_id : N;
  success : bool;
}.

(** The [VecDeque] behind the [Mutex] of a [RequestLogger], oldest first.
    [RequestLogger::new] gives the empty deque. *)
Definition RequestLogger := list RequestLogEntry.
Definition request_logger_new : RequestLogger := [].

(** [RequestLogger::log_request]: drop the oldest entry when full, then
    push the new one at the back. *)
Definition log_request (logs : RequestLogger) (entry : RequestLogEntry) : RequestLogger :=
  (if MAX_LOG_ENTRIES <=? length logs then drop 1 logs else logs) ++ [entry].

(** [RequestLogger::get_logs]: newest first. *)
Definition get_logs (logs : RequestLogger) : list RequestLogEntry := rev logs.

(** The responses of [chat_completions]. [Forwarded] stands for every path
    after a successful conversion (serialisation, the upstream call, the
    streaming or collected response): none of them touches the log. *)
Inductive HandlerResponse :=
| ServiceUnavailable (message : rstr)
| BadRequest (e : ConversionError)
| Forwarded (r : ConversionResult).

(** One call of [chat_completions]: whether [state.kiro_provider] is set,
    the outcome of [acquire_context] (the credential id, or an error), the
    fresh uuid and timestamp of the log entry, the two uuids drawn by
    [convert_request], and the payload. *)
Record HandlerCall := mkHandlerCall {
  call_provider : bool;
  call_credential : option N;
  call_uuid : rstr;
  call_timestamp : rstr;
  call_conversation_id : rstr;
  call_agent_continuation_id : rstr;
  call_payload : ChatCompletionRequest;
}.

(** [chat_completions] on the shared logger ([state.request_logger], an
    [Option<Arc<RequestLogger>>]): the entry is logged with [success: true]
    before [convert_request] runs. *)
Definition chat_completions (json_from_str : rstr -> option json)
    (logger : option RequestLogger) (c : HandlerCall)
    : option RequestLogger * HandlerResponse :=
  let payload := call_payload c in
  if negb (call_provider c) then
    (logger, ServiceUnavailable (lit "Kiro API provider not configured"))
  else
  match call_credential c with
  | None => (logger, ServiceUnavailable (lit "No available credentials"))
  | Some credential_id =>
      let logger :=
        match logger with
        | Some logs =>
            Some (log_request logs
                    (mkRequestLogEntry (call_uuid c) (call_timestamp c) (req_model payload)
                       (effective_max_tokens payload) (is_stream payload)
                       (length (messages payload)) credential_id true))
        | None => None
        end in
      match convert_request json_from_str (call_conversation_id c)
              (call_agent_continuation_id c) payload with
      | Err e => (logger, BadRequest e)
      | Ok r => (logger, Forwarded r)
      end
  end.

(** A run of the server: the calls in order, on one shared logger. *)
Fixpoint run_calls (json_from_str : rstr -> option json)
    (logger : option RequestLogger) (calls : list HandlerCall)
    : option RequestLogger * list HandlerResponse :=
  match calls with
  | [] => (logger, [])
  | c :: cs =>
      let '(logger, resp) := chat_completions json_from_str logger c in
      let '(logger, resps) := run_calls json_from_str logger cs in
      (logger, resp :: resps)
  end.

Definition all_success (logger : option RequestLogger) : Prop :=
  match logger with
  | Some logs => Forall (fun e => success e = true) logs
  | None => True
  end.

(** A call that passes the provider and credential checks and whose
    conversion fails: its message list is empty. *)
Definition failing_call : HandlerCall :=
  mkHandlerCall true (Some 7%N) (lit "log-1") (lit "2026-01-01T00:00:00Z")
    (lit "conv") (lit "agent")
    (mkRequest (lit "gpt-4o") [] None None None None None).

(** A length exception followed by a tool use. *)
Definition cle_then_tool_use : list Event :=
  [Exception ContentLengthExceededException (lit "too long");
   ToolUse (mkToolUseEvent (lit "sum") (lit "a") (lit "{}") true)].

(** The loop of [validate_tool_pairing], as a recursion on the results. *)
Fixpoint pairing_go (valid : gset rstr) (trs : list ToolResult) : list ToolResult :=
  match trs with
  | [] => []
  | r :: trs =>
      if bool_decide (tr_tool_use_id r ∈ valid)
      then r :: pairing_go (valid ∖ {[tr_tool_use_id r]}) trs
      else pairing_go valid trs
  end.

(** The context of the current message of a conversion. *)
Definition result_tool_results (r : ConversionResult) : list ToolResult :=
  match user_input_message_context (current_message (conversation_state r)) with
  | Some c => unwrap_or (ctx_tool_results c) []
  | None => []
  end.

(** The entry [chat_completions] logs for a call, if it gets past the
    provider and credential checks. *)
Definition call_entry (c : HandlerCall) : option RequestLogEntry :=
  if call_provider c then
    match call_credential c with
    | Some k =>
        Some (mkRequestLogEntry (call_uuid c) (call_timestamp c) (req_model (call_payload c))
                (effective_max_tokens (call_payload c)) (is_stream (call_payload c))
                (length (messages (call_payload c))) k true)
    | None => None
    end
  else None.

(** What a client reads off the chunks of a stream. *)
Definition chunk_roles (c : ChatCompletionChunk) : list rstr :=
  omap (fun ch => role (delta ch)) (chunk_choices c).
Definition chunk_finish_reasons (c : ChatCompletionChunk) : list rstr :=
  omap cc_finish_reason (chunk_choices c).
Definition chunk_text (c : ChatCompletionChunk) : rstr :=
  concat (omap (fun ch => delta_content (delta ch)) (chunk_choices c)).

(** The text an event contributes once filtered. *)
Definition event_text (ev : Event) : rstr :=
  match ev with AssistantResponse content => Stream.filter_thinking_tags content | _ => [] end.

(** The fields of the context that are fixed when it is created. *)
Definition frame (ctx : StreamContext) : rstr * rstr * Z * bool :=
  (response_id ctx, sc_model ctx, created ctx, include_usage ctx).

(** The tool_use_ids of the ToolUse events, each once, in the order of
    their first appearance. *)
Definition first_seen_step (acc : list rstr) (ev : Event) : list rstr :=
  match ev with
  | ToolUse tu =>
      if decide (tu_tool_use_id tu ∈ acc) then acc else acc ++ [tu_tool_use_id tu]
  | _ => acc
  end.
Definition tool_ids_seen (evs : list Event) : list rstr :=
  fold_left first_seen_step evs [].

(** The text the non-streaming handler keeps from an event. *)
Definition collected_text (ev : Event) : rstr :=
  match ev with AssistantResponse content => Handlers.filter_thinking_tags content | _ => [] end.

(** The ToolUse events, and those of one tool_use_id. *)
Definition tool_use_of (ev : Event) : option ToolUseEvent :=
  match ev with ToolUse tu => Some tu | _ => None end.
Definition tool_uses_with (id : rstr) (evs : list Event) : list ToolUseEvent :=
  filter (fun tu => tu_tool_use_id tu = id) (omap tool_use_of evs).

(** What the buffers should hold for a tool_use_id: the name of its first
    event and the concatenated inputs of all its events. *)
Definition accumulated_call (id : rstr) (evs : list Event) : option (rstr * rstr) :=
  match tool_uses_with id evs with
  | [] => None
  | t :: l => Some (tu_name t, concat (map tu_input (t :: l)))
  end.

(** The images of a list of content parts, parsed in order; the first
    URL that does not parse is the error. *)
Fixpoint parse_images (parts : list ContentPart) : result ConversionError (list KiroImage) :=
  match parts with
  | [] => Ok []
  | PartText _ :: ps => parse_images ps
  | PartImageUrl iu :: ps =>
      img ← parse_image_url (url iu);
      rest ← parse_images ps;
      Ok (match img with Some im => im :: rest | None => rest end)
  end.


(* ================================================================== *)
(** * Properties *)

(** ** Strings *)

Lemma starts_with_take p s n :
  starts_with p (take n s) = true -> starts_with p s = true.
Proof.
  revert s n. induction p as [|a p IH]; intros s n H; [done|].
  destruct s as [|b s], n as [|n]; simpl in *; try done.
  apply andb_prop in H as [H1 H2]. rewrite H1. simpl. eauto.
Qed.

Lemma starts_with_length p s : starts_with p s = true -> length p <= length s.
Proof.
  revert s. induction p as [|a p IH]; intros [|b s] H; simpl in *; try done; [lia|].
  apply andb_prop in H as [_ H]. specialize (IH s H). lia.
Qed.

Lemma find_le p s i : find p s = Some i -> i + length p <= length s.
Proof.
  revert i. induction s as [|a s IH]; intros i H; simpl in H.
  - destruct (starts_with p []) eqn:E; [injection H as <-|done].
    apply starts_with_length in E. simpl in *. lia.
  - destruct (starts_with p (a :: s)) eqn:E.
    + injection H as <-. apply starts_with_length in E. simpl in *. lia.
    + destruct (find p s) as [j|] eqn:E'; simpl in H; [|done].
      injection H as <-. specialize (IH j eq_refl). simpl. lia.
Qed.

(** Nothing matches before the first match. *)
Lemma find_take_None p s i :
  p <> [] -> find p s = Some i -> find p (take i s) = None.
Proof.
  intros Hp. revert i. induction s as [|a s IH]; intros i H; simpl in H.
  - destruct p; [done|]. simpl in H. done.
  - destruct (starts_with p (a :: s)) eqn:Es.
    + injection H as <-. simpl. destruct p; done.
    + destruct (find p s) as [j|] eqn:E; simpl in H; [|done].
      injection H as <-. simpl.
      destruct (starts_with p (a :: take j s)) eqn:Et.
      * exfalso. change (a :: take j s) with (take (S j) (a :: s)) in Et.
        apply starts_with_take in Et. congruence.
      * rewrite (IH j eq_refl). done.
Qed.

Lemma thinking_open_nonempty : thinking_open <> [].
Proof. done. Qed.

Ltac filter_loop_step IH :=
  intros r Hlen; simpl;
  destruct (find thinking_open r) as [start|] eqn:Eo; [|try done];
  destruct (find thinking_close (drop start r)) as [end_|] eqn:Ec.

(** The output of the loop never contains an opening tag, provided the fuel
    exceeds the length of the input. *)
Lemma stream_loop_no_open fuel r :
  length r < fuel -> find thinking_open (Stream.filter_loop fuel r) = None.
Proof.
  revert r. induction fuel as [|fuel IH]; [intros; lia|].
  filter_loop_step IH.
  - apply IH. pose proof (find_le _ _ _ Eo).
    assert (length thinking_open = 10) by done.
    rewrite length_app, length_take, length_drop. lia.
  - apply find_take_None; [apply thinking_open_nonempty|done].
Qed.

Lemma stream_loop_done fuel r :
  find thinking_open r = None -> Stream.filter_loop (S fuel) r = r.
Proof. intros H. simpl. rewrite H. done. Qed.


Lemma handlers_loop_eq fuel r :
  Handlers.filter_loop fuel r = Stream.filter_loop fuel r.
Proof.
  revert r. induction fuel as [|fuel IH]; intros r; [done|]. simpl.
  destruct (find thinking_open r); [|done].
  destruct (find thinking_close _); [apply IH|done].
Qed.

Lemma handlers_filter_eq s :
  Handlers.filter_thinking_tags s = Stream.filter_thinking_tags s.
Proof. apply handlers_loop_eq. Qed.

Lemma stream_filter_no_open s :
  find thinking_open (Stream.filter_thinking_tags s) = None.
Proof. apply stream_loop_no_open. lia. Qed.

(** C6: applying the thinking-tag filter twice equals applying it once,
    for the copy in stream.rs and for the copy in handlers.rs. *)
Theorem filter_thinking_tags_idempotent (s : rstr) :
  Stream.filter_thinking_tags (Stream.filter_thinking_tags s)
    = Stream.filter_thinking_tags s
  /\ Handlers.filter_thinking_tags (Handlers.filter_thinking_tags s)
    = Handlers.filter_thinking_tags s.
Proof.
  assert (H : Stream.filter_thinking_tags (Stream.filter_thinking_tags s)
              = Stream.filter_thinking_tags s).
  { unfold Stream.filter_thinking_tags at 1.
    apply stream_loop_done, stream_filter_no_open. }
  split; [exact H|]. rewrite !handlers_filter_eq. exact H.
Qed.

Example filter_test1 :
  Stream.filter_thinking_tags (lit "hello") = lit "hello".
Proof. reflexivity. Qed.

Example filter_test2 :
  Stream.filter_thinking_tags
    (lit "before<thinking>test</thinking>" ++ [newline; newline] ++ lit "after")
  = lit "beforeafter".
Proof. vm_compute. reflexivity. Qed.

Example float_cast_test : f64_as_i32 (0.0009765625 * 200000 / 100)%float = 1%Z.
Proof. vm_compute. reflexivity. Qed.

(** ** Streaming transcoder *)

Lemma process_events_cons ctx ev evs :
  process_events ctx (ev :: evs) =
  let '(ctx1, cs) := process_kiro_event ctx ev in
  let '(ctx2, cs') := process_events ctx1 evs in (ctx2, cs ++ cs').
Proof. reflexivity. Qed.

Lemma process_kiro_event_finish_reason ctx ev :
  sc_finish_reason (process_kiro_event ctx ev).1 =
  if is_length_exception ev then Some (lit "length") else sc_finish_reason ctx.
Proof.
  destruct ctx, ev; simpl; try reflexivity.
  - unfold process_assistant_response. simpl. repeat case_match; reflexivity.
  - unfold process_tool_use. simpl. repeat case_match; simplify_eq; reflexivity.
  - case_bool_decide; reflexivity.
Qed.

Lemma process_kiro_event_has_tool_use ctx ev :
  has_tool_use (process_kiro_event ctx ev).1 = has_tool_use ctx || is_tool_use ev.
Proof.
  destruct ctx, ev; simpl; try (rewrite orb_false_r; reflexivity).
  - unfold process_assistant_response. simpl. repeat case_match; simplify_eq;
      rewrite ?orb_false_r; reflexivity.
  - unfold process_tool_use. simpl. repeat case_match; simplify_eq;
      rewrite ?orb_true_r; reflexivity.
  - case_bool_decide; rewrite orb_false_r; reflexivity.
Qed.

Lemma process_kiro_event_context_input_tokens ctx ev :
  context_input_tokens (process_kiro_event ctx ev).1 =
  match ev with
  | ContextUsage p => Some (context_tokens p)
  | _ => context_input_tokens ctx
  end.
Proof.
  destruct ctx, ev; simpl; try reflexivity.
  - unfold process_assistant_response. simpl. repeat case_match; reflexivity.
  - unfold process_tool_use. simpl. repeat case_match; simplify_eq; reflexivity.
  - case_bool_decide; reflexivity.
Qed.

Lemma process_events_finish_reason ctx evs :
  sc_finish_reason (process_events ctx evs).1 =
  if existsb is_length_exception evs then Some (lit "length") else sc_finish_reason ctx.
Proof.
  revert ctx. induction evs as [|ev evs IH]; intros ctx; [reflexivity|].
  rewrite process_events_cons.
  destruct (process_kiro_event ctx ev) as [ctx1 cs] eqn:E.
  destruct (process_events ctx1 evs) as [ctx2 cs'] eqn:E2. simpl.
  pose proof (process_kiro_event_finish_reason ctx ev) as H. rewrite E in H.
  specialize (IH ctx1). rewrite E2 in IH. simpl in *. rewrite IH, H.
  destruct (is_length_exception ev), (existsb is_length_exception evs); reflexivity.
Qed.

Lemma process_events_has_tool_use ctx evs :
  has_tool_use (process_events ctx evs).1 = has_tool_use ctx || existsb is_tool_use evs.
Proof.
  revert ctx. induction evs as [|ev evs IH]; intros ctx; simpl.
  - rewrite orb_false_r. reflexivity.
  - destruct (process_kiro_event ctx ev) as [ctx1 cs] eqn:E.
    destruct (process_events ctx1 evs) as [ctx2 cs'] eqn:E2. simpl.
    pose proof (process_kiro_event_has_tool_use ctx ev) as H. rewrite E in H.
    specialize (IH ctx1). rewrite E2 in IH. simpl in *. rewrite IH, H.
    rewrite orb_assoc. reflexivity.
Qed.

Lemma process_kiro_event_input_tokens ctx ev :
  input_tokens (process_kiro_event ctx ev).1 = input_tokens ctx.
Proof.
  destruct ctx, ev; simpl; try reflexivity.
  - unfold process_assistant_response. simpl. repeat case_match; reflexivity.
  - unfold process_tool_use. simpl. repeat case_match; simplify_eq; reflexivity.
  - case_bool_decide; reflexivity.
Qed.

Lemma process_events_input_tokens ctx evs :
  input_tokens (process_events ctx evs).1 = input_tokens ctx.
Proof.
  revert ctx. induction evs as [|ev evs IH]; intros ctx; [reflexivity|]. simpl.
  destruct (process_kiro_event ctx ev) as [ctx1 cs] eqn:E.
  destruct (process_events ctx1 evs) as [ctx2 cs'] eqn:E2. simpl.
  pose proof (process_kiro_event_input_tokens ctx ev) as H. rewrite E in H.
  specialize (IH ctx1). rewrite E2 in IH. simpl in *. congruence.
Qed.

Lemma last_context_usage_app_acc evs acc :
  fold_left (fun acc ev => match ev with ContextUsage p => Some p | _ => acc end) evs acc =
  match last_context_usage evs with Some p => Some p | None => acc end.
Proof.
  unfold last_context_usage. revert acc.
  induction evs as [|ev evs IH]; intros acc; [reflexivity|]. simpl.
  rewrite (IH (match ev with ContextUsage p => Some p | _ => acc end)).
  rewrite (IH (match ev with ContextUsage p => Some p | _ => None end)).
  destruct (fold_left _ evs None); [reflexivity|]. destruct ev; reflexivity.
Qed.

Lemma process_events_context_input_tokens ctx evs :
  context_input_tokens (process_events ctx evs).1 =
  match last_context_usage evs with
  | Some p => Some (context_tokens p)
  | None => context_input_tokens ctx
  end.
Proof.
  revert ctx. induction evs as [|ev evs IH]; intros ctx; [reflexivity|]. simpl.
  destruct (process_kiro_event ctx ev) as [ctx1 cs] eqn:E.
  destruct (process_events ctx1 evs) as [ctx2 cs'] eqn:E2. simpl.
  pose proof (process_kiro_event_context_input_tokens ctx ev) as H. rewrite E in H.
  specialize (IH ctx1). rewrite E2 in IH. simpl in *. rewrite IH.
  unfold last_context_usage at 2. simpl. rewrite last_context_usage_app_acc.
  destruct (last_context_usage evs); [reflexivity|].
  rewrite H. destruct ev; reflexivity.
Qed.

(** The usage chunk of [generate_final_chunk] reports [get_usage]. *)
Lemma generate_final_chunk_shape ctx :
  exists fr,
  generate_final_chunk ctx =
  stream_chunk ctx delta_default (Some fr) None true ::
  (if include_usage ctx then [stream_chunk ctx delta_default None (Some (get_usage ctx)) false]
   else []).
Proof. unfold generate_final_chunk. eexists. destruct (include_usage ctx); reflexivity. Qed.

Lemma stream_response_ctx model it iu rid cr evs :
  (stream_response model it iu rid cr evs).1 =
  (process_events (set_initial_sent (stream_context_new model it iu rid cr) true) evs).1.
Proof.
  unfold stream_response. simpl.
  destruct (process_events _ evs); reflexivity.
Qed.

Lemma stream_response_final model it iu rid cr evs :
  let '(ctx, chunks) := stream_response model it iu rid cr evs in
  exists cs, chunks = cs ++ generate_final_chunk ctx.
Proof.
  unfold stream_response. simpl.
  destruct (process_events _ evs) as [ctx cs]. eexists (_ :: cs). reflexivity.
Qed.

(** The streaming transcoder applies the finish-reason policy whatever the
    order of the events. *)
Lemma stream_final_finish_reason model it iu rid cr evs :
  let ctx := (stream_response model it iu rid cr evs).1 in
  exists rest,
  generate_final_chunk ctx =
  stream_chunk ctx delta_default (Some (spec_finish_reason evs)) None true :: rest.
Proof.
  simpl. rewrite stream_response_ctx.
  set (c := (process_events _ evs).1).
  pose proof (process_events_finish_reason
    (set_initial_sent (stream_context_new model it iu rid cr) true) evs) as Hf.
  pose proof (process_events_has_tool_use
    (set_initial_sent (stream_context_new model it iu rid cr) true) evs) as Ht.
  fold c in Hf, Ht. simpl in Hf, Ht.
  unfold generate_final_chunk. rewrite Hf, Ht. unfold spec_finish_reason.
  destruct (include_usage c);
    destruct (existsb is_length_exception evs), (existsb is_tool_use evs);
    eexists; reflexivity.
Qed.

Lemma collect_event_context_input_tokens st ev :
  col_context_input_tokens (collect_event st ev) =
  match ev with
  | ContextUsage p => Some (context_tokens p)
  | _ => col_context_input_tokens st
  end.
Proof. destruct st, ev; reflexivity. Qed.

Lemma collect_events_context_input_tokens evs st :
  col_context_input_tokens (fold_left collect_event evs st) =
  match last_context_usage evs with
  | Some p => Some (context_tokens p)
  | None => col_context_input_tokens st
  end.
Proof.
  revert st. induction evs as [|ev evs IH]; intros st; [reflexivity|]. simpl.
  rewrite IH. unfold last_context_usage at 2. simpl.
  rewrite last_context_usage_app_acc.
  destruct (last_context_usage evs); [reflexivity|].
  rewrite collect_event_context_input_tokens. destruct ev; reflexivity.
Qed.

(** C3 (code_bug): the non-streaming collector assigns [finish_reason] in
    event order, so a ContentLengthExceededException followed by a ToolUse
    ends with "tool_calls"; the policy (and the streaming transcoder on the
    same events) gives "length". *)
Theorem non_stream_finish_reason_last_event_wins :
  map choice_finish_reason
      (resp_choices (non_stream_response (lit "m") 1 (lit "chatcmpl-x") 0 cle_then_tool_use))
    = [Some (lit "tool_calls")]
  /\ spec_finish_reason cle_then_tool_use = lit "length"
  /\ sc_finish_reason (stream_response (lit "m") 1 false (lit "chatcmpl-x") 0
                         cle_then_tool_use).1 = Some (lit "length").
Proof. vm_compute. repeat split; reflexivity. Qed.

(** C4 (counterexample): the prompt tokens are truncated, not rounded:
    a percentage of exactly 2^-10 gives 1 where round(2^-10 * 2000) = 2;
    and with two ContextUsage events the first one is overridden. *)
Lemma context_usage_prompt_tokens_cex :
  prompt_tokens (get_usage
    (stream_response (lit "m") 7 false (lit "r") 0 [ContextUsage 0.0009765625%float]).1) = 1%Z
  /\ spec_round_prompt_tokens 0.0009765625%float = Some 2%Z
  /\ prompt_tokens (get_usage
    (stream_response (lit "m") 7 false (lit "r") 0
       [ContextUsage 10.0%float; ContextUsage 5.0%float]).1) = 10000%Z.
Proof. vm_compute. repeat split; reflexivity. Qed.

(** C4 (amended): in both paths, the reported prompt tokens are
    [(p * 200000 / 100) as i32] (truncation toward zero, saturating) for the
    percentage [p] of the last ContextUsage event, and the estimate when
    there is none; the streaming usage chunk reports [get_usage]; a last
    ContextUsage of 10.0 gives 20000. *)
Theorem context_usage_prompt_tokens model it iu rid cr evs :
  prompt_tokens (get_usage (stream_response model it iu rid cr evs).1) =
    match last_context_usage evs with Some p => context_tokens p | None => it end
  /\ option_map prompt_tokens (resp_usage (non_stream_response model it rid cr evs)) =
    Some (match last_context_usage evs with Some p => context_tokens p | None => it end)
  /\ context_tokens 10.0%float = 20000%Z.
Proof.
  split; [|split].
  - rewrite stream_response_ctx. unfold get_usage. simpl.
    rewrite process_events_context_input_tokens, process_events_input_tokens.
    destruct (last_context_usage evs); reflexivity.
  - unfold non_stream_response. simpl.
    rewrite collect_events_context_input_tokens.
    destruct (last_context_usage evs); reflexivity.
  - vm_compute. reflexivity.
Qed.

(** ** Token accounting of assistant text *)

(** C10: a non-empty AssistantResponse adds the estimate of its raw content
    to the output tokens (reported as completion_tokens), even when the
    thinking filter leaves nothing and no chunk is emitted; the estimate is
    at least 1, so without overflow the counter grows. *)
Theorem assistant_response_counts_raw_content ctx content :
  content <> [] ->
  output_tokens (process_assistant_response ctx content).1 =
    i32_add (output_tokens ctx) (estimate_tokens content)
  /\ completion_tokens (get_usage (process_assistant_response ctx content).1) =
    i32_add (output_tokens ctx) (estimate_tokens content)
  /\ (Stream.filter_thinking_tags content = [] ->
      (process_assistant_response ctx content).2 = [])
  /\ (1 <= estimate_tokens content)%Z
  /\ ((0 <= output_tokens ctx)%Z ->
      (output_tokens ctx + estimate_tokens content <= i32_max)%Z ->
      (output_tokens ctx < output_tokens (process_assistant_response ctx content).1)%Z).
Proof.
  intros Hne.
  assert (Hest : (1 <= estimate_tokens content)%Z).
  { unfold estimate_tokens. destruct (fold_left _ _ _). lia. }
  destruct content as [|c cs]; [done|].
  set (ctx' := set_output_tokens ctx (i32_add (output_tokens ctx) (estimate_tokens (c :: cs)))).
  assert (Hot : output_tokens ctx' = i32_add (output_tokens ctx) (estimate_tokens (c :: cs)))
    by (destruct ctx; reflexivity).
  assert (Hfst : (process_assistant_response ctx (c :: cs)).1 = ctx').
  { unfold process_assistant_response. change (is_empty (c :: cs)) with false.
    cbv zeta iota. destruct (is_empty _); reflexivity. }
  rewrite Hfst. split; [exact Hot|]. split; [exact Hot|]. split.
  - intros Hf. unfold process_assistant_response. change (is_empty (c :: cs)) with false.
    cbv zeta iota. rewrite Hf. reflexivity.
  - split; [exact Hest|]. intros H0 Hmax. rewrite Hot.
    unfold i32_add, wrap_i32, i32_max in *. rewrite Z.mod_small by lia. lia.
Qed.

Lemma assistant_response_counts_raw_content_witness :
  (lit "<thinking>x</thinking>" <> []) /\
  output_tokens (process_assistant_response
     (stream_context_new (lit "m") 1 false (lit "r") 0) (lit "<thinking>x</thinking>")).1
    = i32_add 0 (estimate_tokens (lit "<thinking>x</thinking>")).
Proof.
  split; [done|].
  apply (assistant_response_counts_raw_content
           (stream_context_new (lit "m") 1 false (lit "r") 0)
           (lit "<thinking>x</thinking>")).
  done.
Defined.

(** ** Tool-call deltas *)

(** Whatever the state of [tool_indices], the "first chunk" test of
    [process_tool_use] holds exactly when the input is empty: the id was
    inserted just before the test, so [!contains_key] is always false. *)
Lemma process_tool_use_shape ctx tu :
  exists idx,
  chunk_tool_calls (process_tool_use ctx tu).2 =
  [Some [if is_empty (tu_input tu)
         then mkDeltaToolCall idx (Some (tu_tool_use_id tu)) (Some (lit "function"))
                (Some (mkDeltaFunction (Some (tu_name tu)) None))
         else mkDeltaToolCall idx None None
                (Some (mkDeltaFunction None (Some (tu_input tu))))]].
Proof.
  destruct ctx as [m r c it cit ot is htu ti nti iu fr], tu as [nm id inp st].
  unfold process_tool_use. simpl.
  destruct (ti !! id) as [idx|] eqn:E; simpl.
  - exists idx. rewrite E, Z.eqb_refl. simpl.
    destruct (is_empty inp); reflexivity.
  - exists nti. rewrite lookup_insert_eq, Z.eqb_refl. simpl.
    destruct (is_empty inp); reflexivity.
Qed.

(** C1 (code_bug): on the spec's two-fragment example the first ToolUse of
    id "a" produces an arguments-only delta (no id, no type, no name). *)
Theorem tool_use_first_sight_lacks_name :
  chunk_tool_calls
    (process_events (stream_context_new (lit "gpt-4o") 1 false (lit "chatcmpl-1") 0)
       two_fragments).2
  = [Some [mkDeltaToolCall 0 None None (Some (mkDeltaFunction None (Some frag1)))];
     Some [mkDeltaToolCall 0 None None (Some (mkDeltaFunction None (Some frag2)))]].
Proof. vm_compute. reflexivity. Qed.

(** ** Model mapping *)

Lemma starts_with_spec p t :
  starts_with p t = true <-> length p <= length t /\ take (length p) t = p.
Proof.
  revert t. induction p as [|a p IH]; intros [|b t]; simpl; split; try done.
  - intros _. split; [lia|done].
  - intros [H _]. lia.
  - intros H. apply andb_prop in H as [H1 H2]. apply N.eqb_eq in H1 as ->.
    apply IH in H2 as [H2 H3]. split; [lia|]. rewrite H3. done.
  - intros [H1 H2]. injection H2 as -> H2. rewrite N.eqb_refl. simpl.
    apply IH. split; [lia|done].
Qed.

Lemma find_drop p s i : find p s = Some i -> starts_with p (drop i s) = true.
Proof.
  revert i. induction s as [|a s IH]; intros i H; simpl in H.
  - destruct (starts_with p []) eqn:E; [injection H as <-|done]. done.
  - destruct (starts_with p (a :: s)) eqn:E; [injection H as <-; done|].
    destruct (find p s) as [j|] eqn:E'; simpl in H; [|done].
    injection H as <-. simpl. auto.
Qed.

Lemma drop_find p s i : starts_with p (drop i s) = true -> is_Some (find p s).
Proof.
  revert i. induction s as [|a s IH]; intros i H; simpl.
  - rewrite drop_nil in H. rewrite H. eauto.
  - destruct (starts_with p (a :: s)) eqn:E; [eauto|].
    destruct i as [|i]; [simpl in H; congruence|].
    simpl in H. destruct (IH i H) as [j ->]. simpl. eauto.
Qed.

Lemma to_lowercase_take n s : to_lowercase (take n s) = take n (to_lowercase s).
Proof. unfold to_lowercase. symmetry. apply firstn_map. Qed.

Lemma to_lowercase_drop n s : to_lowercase (drop n s) = drop n (to_lowercase s).
Proof. unfold to_lowercase. symmetry. apply skipn_map. Qed.

Lemma to_lowercase_length s : length (to_lowercase s) = length s.
Proof. apply length_map. Qed.

(** For a lowercase pattern, [contains] on the lowercased string is the
    case-insensitive containment. *)
Lemma contains_lowercase_iff s p :
  to_lowercase p = p ->
  contains (to_lowercase s) p = true <-> ci_contains s p.
Proof.
  intros Hp. unfold contains, ci_contains. split.
  - destruct (find p (to_lowercase s)) as [i|] eqn:E; [|done]. intros _.
    pose proof (find_le _ _ _ E) as Hle. rewrite to_lowercase_length in Hle.
    apply find_drop in E. apply starts_with_spec in E as [E1 E2].
    exists i. split; [lia|]. rewrite to_lowercase_take, to_lowercase_drop, E2. done.
  - intros (i & Hi & Heq).
    destruct (drop_find p (to_lowercase s) i) as [j ->]; [|done].
    apply starts_with_spec. rewrite length_drop, to_lowercase_length.
    split; [lia|]. rewrite <- to_lowercase_drop, <- to_lowercase_take, Heq. done.
Qed.

Lemma map_model_Some_is m : map_model m <> None.
Proof. unfold map_model. repeat case_match; done. Qed.

Lemma parse_image_url_error_kind u e :
  parse_image_url u = Err e -> e = InvalidImageUrl u.
Proof. unfold parse_image_url. repeat case_match; intros Hu; simplify_eq; done. Qed.

Lemma extract_content_with_images_error_kind c e :
  extract_content_with_images c = Err e -> exists u, e = InvalidImageUrl u.
Proof.
  unfold extract_content_with_images.
  destruct c as [[t|parts]|]; cbn; try done.
  set (f := fun (acc : result ConversionError (list rstr * list KiroImage)) part =>
          '(texts, images) ← acc;
          match part with
          | PartText t => Ok (texts ++ [t], images)
          | PartImageUrl iu =>
              img ← parse_image_url (url iu);
              Ok (texts, match img with Some im => images ++ [im] | None => images end)
          end).
  assert (Hf : forall acc, (forall e0, acc = Err e0 -> exists u, e0 = InvalidImageUrl u) ->
            forall e0, fold_left f parts acc = Err e0 -> exists u, e0 = InvalidImageUrl u).
  { induction parts as [|pt parts IHp]; intros acc Hacc e0 H; cbn in H; [eauto|].
    eapply IHp; [|exact H]. intros e1 H1. subst f. cbn in H1.
    destruct acc as [[tx im]|e2]; cbn in H1; [|eauto].
    destruct pt as [t|iu]; cbn in H1; [done|].
    destruct (parse_image_url (url iu)) eqn:Ep; cbn in H1; [done|].
    injection H1 as <-. apply parse_image_url_error_kind in Ep. eauto. }
  intros H. destruct (fold_left f parts _) as [[tx im]|e0] eqn:E; cbn in H; [done|].
  injection H as <-. eapply Hf; [|exact E]. done.
Qed.

Lemma process_message_error_kind jf mid n st i m e :
  process_message jf mid n st i m = Err e -> exists u, e = InvalidImageUrl u.
Proof.
  destruct st. unfold process_message.
  destruct (role_is m "system"); [done|].
  destruct (role_is m "user").
  - destruct (extract_content_with_images (cm_content m)) as [[t im]|e'] eqn:E; cbn.
    + destruct (Nat.eqb i (n - 1)); done.
    + intros H. injection H as <-. eapply extract_content_with_images_error_kind; eauto.
  - destruct (role_is m "assistant").
    + destruct (bool_decide _); done.
    + destruct (role_is m "tool"); [destruct (tool_call_id m)|]; done.
Qed.

Lemma process_messages_error_kind jf msgs mid e :
  process_messages jf msgs mid = Err e -> exists u, e = InvalidImageUrl u.
Proof.
  unfold process_messages.
  assert (Hloop : forall n st i msgs, process_loop jf mid n st i msgs = Err e ->
                    exists u, e = InvalidImageUrl u).
  { intros n st i ms. revert st i. induction ms as [|m ms IH]; intros st i H; cbn in H;
      [done|].
    destruct (process_message jf mid n st i m) as [st'|e'] eqn:Em; cbn in H; [eauto|].
    injection H as ->. eapply process_message_error_kind; eauto. }
  intros H. destruct (process_loop _ _ _ _ _ _) eqn:E; cbn in H; [done|].
  injection H as <-. eauto.
Qed.

Lemma convert_request_error_kind jf cid aid req e :
  convert_request jf cid aid req = Err e ->
  e = EmptyMessages \/ exists u, e = InvalidImageUrl u.
Proof.
  unfold convert_request. intros H.
  destruct (map_model (req_model req)) as [mid|] eqn:Em; [|by apply map_model_Some_is in Em].
  cbn in H. case_bool_decide; [injection H as <-; auto|].
  destruct (process_messages jf (messages req) mid) as [x|e'] eqn:Ep; cbn in H.
  - destruct x as [[[[? ?] ?] ?] ?]. done.
  - injection H as <-. right. eapply process_messages_error_kind; eauto.
Qed.

(** C7: the model is claude-sonnet-4.5 when its name contains "sonnet"
    case-insensitively (whether or not it also contains "opus"), else
    claude-opus-4.5 when it contains "opus", else claude-haiku-4.5;
    [map_model] never returns [None], so [convert_request] never fails
    with [UnsupportedModel]. *)
Theorem map_model_spec (m : rstr) :
  (ci_contains m (lit "sonnet") -> map_model m = Some (lit "claude-sonnet-4.5"))
  /\ (~ ci_contains m (lit "sonnet") -> ci_contains m (lit "opus") ->
      map_model m = Some (lit "claude-opus-4.5"))
  /\ (~ ci_contains m (lit "sonnet") -> ~ ci_contains m (lit "opus") ->
      map_model m = Some (lit "claude-haiku-4.5"))
  /\ map_model m <> None
  /\ (forall jf cid aid req model,
        convert_request jf cid aid req <> Err (UnsupportedModel model)).
Proof.
  pose proof (contains_lowercase_iff m (lit "sonnet") eq_refl) as Hs.
  pose proof (contains_lowercase_iff m (lit "opus") eq_refl) as Ho.
  unfold map_model.
  split; [|split; [|split; [|split]]].
  - intros H. apply Hs in H. rewrite H. done.
  - intros H1 H2. apply Ho in H2. rewrite H2.
    destruct (contains _ (lit "sonnet")) eqn:E; [|done]. exfalso. apply H1, Hs. done.
  - intros H1 H2.
    destruct (contains _ (lit "sonnet")) eqn:E; [exfalso; apply H1, Hs; done|].
    destruct (contains _ (lit "opus")) eqn:E'; [exfalso; apply H2, Ho; done|]. done.
  - repeat case_match; done.
  - intros jf cid aid req model H.
    destruct (convert_request_error_kind _ _ _ _ _ H) as [?|[u ?]]; done.
Qed.

(** ** Tool definitions *)

Lemma utf8_len_pos c : 1 <= utf8_len c.
Proof. unfold utf8_len. repeat case_match; lia. Qed.

Lemma char_indices_from_lookup off s n :
  char_indices_from off s !! n =
  (fun c => (off + byte_len (take n s), c)) <$> s !! n.
Proof.
  revert off n. induction s as [|c s IH]; intros off [|n]; cbn; try done.
  - rewrite Nat.add_0_r. done.
  - rewrite IH. destruct (s !! n); cbn; [|done].
    unfold byte_len. cbn. do 2 f_equal. lia.
Qed.

Lemma slice_to_from_take off s n :
  slice_to_from off (off + byte_len (take n s)) s = take n s.
Proof.
  revert off n. induction s as [|c s IH]; intros off [|n]; try done.
  - cbn [take byte_len sum_list_with slice_to_from].
    rewrite Nat.add_0_r, Nat.ltb_irrefl. done.
  - pose proof (utf8_len_pos c).
    cbn [take byte_len sum_list_with slice_to_from].
    destruct (Nat.ltb_spec off (off + (utf8_len c + sum_list_with utf8_len (take n s))));
      [|lia].
    f_equal.
    replace (off + (utf8_len c + sum_list_with utf8_len (take n s)))
      with (off + utf8_len c + byte_len (take n s)) by (unfold byte_len; lia).
    apply IH.
Qed.

(** [description.char_indices().nth(n)] then [description[..idx]] keeps the
    first [n] chars. *)
Lemma truncate_chars_take (d : rstr) n :
  match char_indices d !! n with
  | Some (idx, _) => slice_to d idx
  | None => d
  end = take n d.
Proof.
  unfold char_indices. rewrite char_indices_from_lookup.
  destruct (d !! n) as [c|] eqn:E; cbn.
  - unfold slice_to. apply (slice_to_from_take 0 d n).
  - apply lookup_ge_None in E. rewrite take_ge; [done|lia].
Qed.

(** C8: every tool whose type is "function" is carried through with its
    description cut to its first 10,000 chars (Unicode scalar values, not
    bytes), so at most 10,000 of them, and with the schema
    {"type":"object","properties":{},"required":[]} when it has no
    parameters; other tools are dropped. *)
Theorem convert_tools_spec (tools : list Tool) :
  convert_tools (Some tools) =
  map (fun t =>
         mkKiroTool (mkToolSpecification (fd_name (tool_function t))
           (take 10000 (unwrap_or (description (tool_function t)) []))
           (match parameters (tool_function t) with
            | Some p => JObject p
            | None => default_input_schema
            end)))
      (filter (fun t => tool_type t = lit "function") tools)
  /\ (forall kt, kt ∈ convert_tools (Some tools) ->
        length (ts_description (tool_specification kt)) <= 10000)
  /\ default_input_schema =
     JObject [(lit "type", JString (lit "object")); (lit "properties", JObject []);
              (lit "required", JArray [])].
Proof.
  assert (Heq : convert_tools (Some tools) =
    map (fun t =>
         mkKiroTool (mkToolSpecification (fd_name (tool_function t))
           (take 10000 (unwrap_or (description (tool_function t)) []))
           (match parameters (tool_function t) with
            | Some p => JObject p
            | None => default_input_schema
            end)))
      (filter (fun t => tool_type t = lit "function") tools)).
  { unfold convert_tools. apply map_ext. intros t.
    rewrite truncate_chars_take. done. }
  split; [exact Heq|]. split; [|done].
  intros kt Hkt. rewrite Heq in Hkt. apply list_elem_of_fmap in Hkt as (t & -> & _).
  cbn. rewrite length_take. lia.
Qed.

(** ** Tool-result pairing *)

Lemma pairing_fold acc valid trs :
  (fold_left (fun '(filtered, valid) result =>
      if bool_decide (tr_tool_use_id result ∈ valid)
      then (filtered ++ [result], valid ∖ {[tr_tool_use_id result]})
      else (filtered, valid)) trs (acc, valid)).1 = acc ++ pairing_go valid trs.
Proof.
  revert acc valid. induction trs as [|r trs IH]; intros acc valid; cbn.
  - rewrite app_nil_r. done.
  - case_bool_decide; rewrite IH; [rewrite <- app_assoc|]; done.
Qed.

Lemma validate_tool_pairing_go history trs :
  validate_tool_pairing history trs =
  pairing_go (list_to_set (history_tool_use_ids history)) trs.
Proof. unfold validate_tool_pairing. rewrite pairing_fold. done. Qed.

Lemma pairing_go_valid valid trs r :
  r ∈ pairing_go valid trs -> tr_tool_use_id r ∈ valid.
Proof.
  revert valid. induction trs as [|r' trs IH]; intros valid H; cbn in H.
  - by apply elem_of_nil in H.
  - case_bool_decide.
    + apply elem_of_cons in H as [->|H]; [done|].
      apply IH in H. set_solver.
    + auto.
Qed.

Lemma pairing_go_sublist valid trs : sublist (pairing_go valid trs) trs.
Proof.
  revert valid. induction trs as [|r trs IH]; intros valid; cbn; [constructor|].
  case_bool_decide; constructor; auto.
Qed.

Lemma pairing_go_nodup valid trs : NoDup (map tr_tool_use_id (pairing_go valid trs)).
Proof.
  revert valid. induction trs as [|r trs IH]; intros valid; cbn; [constructor|].
  case_bool_decide; [|auto]. cbn. constructor; [|auto].
  intros Hin. apply list_elem_of_fmap in Hin as (r' & Heq & Hr').
  apply pairing_go_valid in Hr'. set_solver.
Qed.

Lemma pairing_go_first valid trs i r :
  trs !! i = Some r -> tr_tool_use_id r ∈ valid ->
  (forall j r', j < i -> trs !! j = Some r' -> tr_tool_use_id r' <> tr_tool_use_id r) ->
  r ∈ pairing_go valid trs.
Proof.
  revert valid i. induction trs as [|r0 trs IH]; intros valid i Hi Hv Hfirst; [done|].
  destruct i as [|i]; cbn in Hi |- *.
  - injection Hi as ->. rewrite bool_decide_true by done. apply elem_of_cons. auto.
  - assert (Hne : tr_tool_use_id r0 <> tr_tool_use_id r)
      by (apply (Hfirst 0); [lia|done]).
    assert (Hrest : forall j r', j < i -> trs !! j = Some r' ->
                      tr_tool_use_id r' <> tr_tool_use_id r)
      by (intros j r' Hj; apply (Hfirst (S j)); lia).
    case_bool_decide.
    + apply elem_of_cons. right. apply (IH _ i); [done| |done]. set_solver.
    + apply (IH _ i); done.
Qed.

Lemma history_tool_use_ids_app h1 h2 :
  history_tool_use_ids (h1 ++ h2) = history_tool_use_ids h1 ++ history_tool_use_ids h2.
Proof. unfold history_tool_use_ids. rewrite map_app, concat_app, map_app. done. Qed.

Lemma convert_request_tool_results jf cid aid req r :
  convert_request jf cid aid req = Ok r ->
  exists sys h trs,
    history (conversation_state r) = sys ++ h /\
    history_tool_use_ids sys = [] /\
    result_tool_results r = validate_tool_pairing h trs.
Proof.
  unfold convert_request. intros H.
  destruct (map_model (req_model req)) as [mid|] eqn:Em; [|by apply map_model_Some_is in Em].
  cbn in H. case_bool_decide; [done|].
  destruct (process_messages jf (messages req) mid) as [x|e'] eqn:Ep; cbn in H; [|done].
  destruct x as [[[[sc h] luc] li] trs]. cbn in H. injection H as <-.
  eexists _, h, trs. split; [reflexivity|]. split.
  - destruct (is_empty sc); done.
  - unfold result_tool_results. cbn. case_bool_decide as Hv; [|done]. rewrite Hv. done.
Qed.

(** C5: every tool result kept in the context of a successful conversion
    has the id of a tool use of an assistant entry of the emitted history;
    the kept results are the collected ones, in order, with those matching
    no tool use dropped and, among results sharing an id, only the first
    kept; no pairing outcome makes the conversion fail (its only errors are
    EmptyMessages and InvalidImageUrl). *)
Theorem tool_result_pairing :
  (forall jf cid aid req r, convert_request jf cid aid req = Ok r ->
     forall tr, tr ∈ result_tool_results r ->
       tr_tool_use_id tr ∈ history_tool_use_ids (history (conversation_state r)))
  /\ (forall (history : list Message) (trs : list ToolResult),
       let kept := validate_tool_pairing history trs in
       sublist kept trs
       /\ (forall tr, tr ∈ kept -> tr_tool_use_id tr ∈ history_tool_use_ids history)
       /\ NoDup (map tr_tool_use_id kept)
       /\ (forall i tr, trs !! i = Some tr ->
             tr_tool_use_id tr ∈ history_tool_use_ids history ->
             (forall j tr', j < i -> trs !! j = Some tr' ->
                tr_tool_use_id tr' <> tr_tool_use_id tr) ->
             tr ∈ kept))
  /\ (forall jf cid aid req e, convert_request jf cid aid req = Err e ->
       e = EmptyMessages \/ exists u, e = InvalidImageUrl u).
Proof.
  split; [|split].
  - intros jf cid aid req r Hr tr Htr.
    destruct (convert_request_tool_results _ _ _ _ _ Hr) as (sys & h & trs & Hh & Hs & Ht).
    rewrite Hh, history_tool_use_ids_app, Hs. cbn.
    rewrite Ht, validate_tool_pairing_go in Htr.
    apply pairing_go_valid in Htr. by apply elem_of_list_to_set in Htr.
  - intros history trs kept. subst kept. rewrite validate_tool_pairing_go.
    split; [apply pairing_go_sublist|]. split; [|split].
    + intros tr Htr. apply pairing_go_valid in Htr. by apply elem_of_list_to_set in Htr.
    + apply pairing_go_nodup.
    + intros i tr Hi Hin Hfirst. apply (pairing_go_first _ _ i); [done| |done].
      by apply elem_of_list_to_set.
  - apply convert_request_error_kind.
Qed.

(** ** Shape of the history *)

Lemma paired_app h1 h2 : paired h1 -> paired h2 -> paired (h1 ++ h2).
Proof. intros H1 H2. induction H1; cbn; [done|constructor..]; auto. Qed.

Lemma paired_snoc_assistant h a : paired h -> paired (h ++ [MAssistant a]).
Proof. intros H. apply paired_app; [done|]. repeat constructor. Qed.

Lemma paired_last h :
  paired h -> h = [] \/ exists a, last h = Some (MAssistant a).
Proof.
  induction 1 as [|a h Hh IH|u a h Hh IH]; [auto| |]; right.
  - destruct IH as [->|[a' Ha']]; [eauto|]. exists a'. destruct h; done.
  - destruct IH as [->|[a' Ha']]; [eauto|]. exists a'. destruct h; done.
Qed.

Lemma process_message_paired jf mid n st i m st' :
  process_message jf mid n st i m = Ok st' ->
  paired (pm_history st) -> paired (pm_history st').
Proof.
  destruct st as [sc h luc li trs ub]. unfold process_message. cbn. intros H Hp.
  destruct (role_is m "system"); [injection H as <-; done|].
  destruct (role_is m "user").
  - destruct (extract_content_with_images (cm_content m)) as [[t im]|e'] eqn:E;
      cbn in H; [|done].
    destruct (Nat.eqb i (n - 1)); injection H as <-; done.
  - destruct (role_is m "assistant").
    + case_bool_decide; cbn in H; injection H as <-; cbn.
      * by apply paired_snoc_assistant.
      * rewrite <- app_assoc. apply paired_app; [done|]. repeat constructor.
    + destruct (role_is m "tool"); [destruct (tool_call_id m)|];
        injection H as <-; done.
Qed.

Lemma process_loop_paired jf mid n st i msgs st' :
  process_loop jf mid n st i msgs = Ok st' ->
  paired (pm_history st) -> paired (pm_history st').
Proof.
  revert st i. induction msgs as [|m msgs IH]; intros st i H Hp; cbn in H.
  - by injection H as <-.
  - destruct (process_message jf mid n st i m) as [st1|e] eqn:E; cbn in H; [|done].
    eapply IH; [exact H|]. eapply process_message_paired; eauto.
Qed.

Lemma convert_request_history jf cid aid req r :
  convert_request jf cid aid req = Ok r -> paired (history (conversation_state r)).
Proof.
  unfold convert_request. intros H.
  destruct (map_model (req_model req)) as [mid|] eqn:Em; [|by apply map_model_Some_is in Em].
  cbn in H. case_bool_decide; [done|].
  destruct (process_messages jf (messages req) mid) as [x|e'] eqn:Ep; cbn in H; [|done].
  destruct x as [[[[sc h] luc] li] trs]. cbn in H. injection H as <-. cbn.
  unfold process_messages in Ep.
  destruct (process_loop _ _ _ _ _ _) as [st|e] eqn:El; cbn in Ep; [|done].
  injection Ep as Hsc Hh _ _ _. subst h.
  apply paired_app; [destruct (is_empty sc); repeat constructor|].
  assert (Hst : paired (pm_history st)) by (eapply process_loop_paired; [exact El|constructor]).
  case_bool_decide; [done|].
  apply paired_app; [done|]. repeat constructor.
Qed.

(** C2 (counterexample): an assistant turn split over two messages gives a
    history with two adjacent assistant entries, and a conversation opening
    with an assistant message gives a history starting with one. *)
Lemma history_alternation_cex :
  match convert_request (fun _ => None) (lit "conv") (lit "agent") two_assistant_request with
  | Ok r => map message_role (history (conversation_state r))
  | Err _ => []
  end = [lit "user"; lit "assistant"; lit "assistant"]
  /\
  match convert_request (fun _ => None) (lit "conv") (lit "agent") assistant_first_request with
  | Ok r => map message_role (history (conversation_state r))
  | Err _ => []
  end = [lit "assistant"].
Proof. split; vm_compute; reflexivity. Qed.

(** C2 (amended): in the history of every successful conversion each user
    entry is immediately followed by an assistant entry (no two user
    entries are adjacent), and the last entry is an assistant entry when
    the history is not empty. *)
Theorem history_paired jf cid aid req r :
  convert_request jf cid aid req = Ok r ->
  paired (history (conversation_state r))
  /\ (history (conversation_state r) = []
      \/ exists a, last (history (conversation_state r)) = Some (MAssistant a)).
Proof.
  intros H. pose proof (convert_request_history _ _ _ _ _ H) as Hp.
  split; [done|]. by apply paired_last.
Qed.

Lemma history_paired_witness :
  exists r, convert_request (fun _ => None) (lit "conv") (lit "agent") two_assistant_request = Ok r
  /\ paired (history (conversation_state r)).
Proof.
  eexists. split; [vm_compute; reflexivity|].
  apply (history_paired (fun _ => None) (lit "conv") (lit "agent") two_assistant_request).
  vm_compute. reflexivity.
Defined.

(** ** The request log *)

Lemma log_request_success logs e :
  Forall (fun e => success e = true) logs -> success e = true ->
  Forall (fun e => success e = true) (log_request logs e).
Proof.
  intros Hl He. unfold log_request. apply Forall_app. split; [|by constructor].
  destruct (MAX_LOG_ENTRIES <=? length logs); [|done].
  by apply Forall_drop.
Qed.

Lemma chat_completions_success jf logger c :
  all_success logger -> all_success (chat_completions jf logger c).1.
Proof.
  unfold chat_completions. intros H.
  destruct (call_provider c); cbn; [|done].
  destruct (call_credential c) as [k|]; [|done].
  destruct logger as [logs|]; [|by case_match].
  case_match; cbn; apply log_request_success; done.
Qed.

Lemma run_calls_success jf logger calls :
  all_success logger -> all_success (run_calls jf logger calls).1.
Proof.
  revert logger. induction calls as [|c cs IH]; intros logger H; [done|].
  cbn. destruct (chat_completions jf logger c) as [l r] eqn:E.
  destruct (run_calls jf l cs) as [l' rs] eqn:E'. cbn.
  change l' with (l', rs).1. rewrite <- E'. apply IH.
  change l with (l, r).1. rewrite <- E. by apply chat_completions_success.
Qed.

(** C9: every entry ever stored in the request log, from a fresh logger
    and over any run of calls, has [success = true]; and a call that gets
    past the provider and credential checks logs its entry with
    [success = true] whatever the conversion gives, a failing conversion
    answering [BadRequest] with the entry still logged. *)
Theorem request_log_always_success :
  (forall jf calls,
     all_success (run_calls jf (Some request_logger_new) calls).1)
  /\
  (forall jf logs c k,
     chat_completions jf (Some logs)
       (mkHandlerCall true (Some k) (call_uuid c) (call_timestamp c)
          (call_conversation_id c) (call_agent_continuation_id c) (call_payload c))
     = (Some (log_request logs
          (mkRequestLogEntry (call_uuid c) (call_timestamp c) (req_model (call_payload c))
             (effective_max_tokens (call_payload c)) (is_stream (call_payload c))
             (length (messages (call_payload c))) k true)),
        match convert_request jf (call_conversation_id c) (call_agent_continuation_id c)
                (call_payload c) with
        | Err e => BadRequest e
        | Ok r => Forwarded r
        end))
  /\
  (forall jf,
     chat_completions jf (Some request_logger_new) failing_call
     = (Some [mkRequestLogEntry (lit "log-1") (lit "2026-01-01T00:00:00Z") (lit "gpt-4o")
                4096 false 0 7 true],
        BadRequest EmptyMessages)).
Proof.
  split; [|split].
  - intros jf calls. apply run_calls_success. constructor.
  - intros jf logs c k. unfold chat_completions. cbn. by case_match.
  - intros jf. vm_compute. reflexivity.
Qed.

(* ================================================================== *)
(** * Further properties of the code *)

(** ** The request log *)

Lemma log_request_drop logs e :
  length logs <= MAX_LOG_ENTRIES ->
  log_request logs e = drop (length logs + 1 - MAX_LOG_ENTRIES) (logs ++ [e]).
Proof.
  intros H. unfold log_request, MAX_LOG_ENTRIES in *.
  destruct (Nat.leb_spec 50 (length logs)).
  - replace (length logs + 1 - 50) with 1 by lia.
    rewrite drop_app_le by lia. done.
  - replace (length logs + 1 - 50) with 0 by lia. done.
Qed.

Lemma log_requests_drop es logs :
  length logs <= MAX_LOG_ENTRIES ->
  fold_left log_request es logs
  = drop (length logs + length es - MAX_LOG_ENTRIES) (logs ++ es).
Proof.
  revert logs. induction es as [|e es IH]; intros logs H; cbn [fold_left].
  - rewrite app_nil_r. unfold MAX_LOG_ENTRIES in *.
    assert (length logs + length (@nil RequestLogEntry) - 50 = 0) as -> by (cbn; lia).
    done.
  - assert (Hl : length (log_request logs e) <= MAX_LOG_ENTRIES).
    { rewrite log_request_drop by done. rewrite length_drop, length_app.
      unfold MAX_LOG_ENTRIES in *. cbn. lia. }
    rewrite (IH _ Hl), (log_request_drop _ _ H), length_drop, length_app.
    rewrite <- drop_app_le by (rewrite length_app; cbn; lia).
    rewrite drop_drop, <- app_assoc. cbn [length app].
    f_equal. unfold MAX_LOG_ENTRIES in *. lia.
Qed.

(** The request log is a window of the 50 most recent entries: logging
    entries one after the other from a fresh logger keeps exactly the last
    50 of them, oldest first, and [get_logs] lists them newest first, the
    entry just logged at its head. *)
Theorem request_log_window (es : list RequestLogEntry) :
  fold_left log_request es request_logger_new = drop (length es - MAX_LOG_ENTRIES) es
  /\ length (fold_left log_request es request_logger_new) = Nat.min (length es) MAX_LOG_ENTRIES
  /\ (forall logs e, head (get_logs (log_request logs e)) = Some e).
Proof.
  assert (H : fold_left log_request es request_logger_new
              = drop (length es - MAX_LOG_ENTRIES) es).
  { rewrite log_requests_drop; [done|cbn; unfold MAX_LOG_ENTRIES; lia]. }
  split; [exact H|split].
  - rewrite H, length_drop. unfold MAX_LOG_ENTRIES. lia.
  - intros logs e. unfold get_logs, log_request. rewrite rev_app_distr. done.
Qed.

Lemma chat_completions_log jf logs c :
  (chat_completions jf (Some logs) c).1 =
  Some (match call_entry c with Some e => log_request logs e | None => logs end).
Proof.
  unfold chat_completions, call_entry.
  destruct (call_provider c); cbn; [|done].
  destruct (call_credential c); [|done]. by case_match.
Qed.

(** Over any run of calls on a shared logger, the log receives, in call
    order, one entry for each call that passes the provider and credential
    checks, and nothing for the others; the outcome of the conversion plays
    no part. *)
Theorem run_calls_log jf logs calls :
  (run_calls jf (Some logs) calls).1 =
  Some (fold_left log_request (omap call_entry calls) logs).
Proof.
  revert logs. induction calls as [|c cs IH]; intros logs; [done|].
  change (run_calls jf (Some logs) (c :: cs)) with
    (let '(logger, resp) := chat_completions jf (Some logs) c in
     let '(logger, resps) := run_calls jf logger cs in (logger, resp :: resps)).
  pose proof (chat_completions_log jf logs c) as Hc.
  destruct (chat_completions jf (Some logs) c) as [l r]. cbn [fst] in Hc. subst l.
  cbv zeta.
  set (X := match call_entry c with Some e => log_request logs e | None => logs end).
  generalize (IH X). destruct (run_calls jf (Some X) cs) as [l' rs]. cbn. intros ->.
  subst X. change (omap call_entry (c :: cs)) with
    (match call_entry c with Some e => e :: omap call_entry cs | None => omap call_entry cs end).
  destruct (call_entry c); reflexivity.
Qed.

(** ** Image URLs *)


(** ** The thinking filter *)

Lemma starts_with_app p u : starts_with p (p ++ u) = true.
Proof. induction p as [|a p IH]; [done|]. cbn. by rewrite N.eqb_refl, IH. Qed.

Lemma find_unfold p s :
  find p s = if starts_with p s then Some 0
             else match s with [] => None | _ :: s' => S <$> find p s' end.
Proof. destruct s; reflexivity. Qed.

Lemma starts_with_snoc_head a q s v :
  a ∉ q -> starts_with q s = false -> starts_with q (s ++ a :: v) = false.
Proof.
  revert s. induction q as [|c q IH]; intros s Ha H; [done|].
  destruct s as [|d s]; cbn in *.
  - destruct (N.eqb_spec c a); [subst; set_solver|done].
  - destruct (N.eqb_spec c d); [|done]. cbn in *. apply IH; [set_solver|done].
Qed.

(** A pattern whose first char does not occur again is found at the first
    place it is written, after a text where it does not occur. *)
Lemma find_app_first a q s u :
  a ∉ q -> find (a :: q) s = None -> find (a :: q) (s ++ (a :: q) ++ u) = Some (length s).
Proof.
  intros Ha. induction s as [|b s IH]; intros H.
  - pose proof (starts_with_app (a :: q) u) as Hsw.
    cbn [app length] in *. rewrite find_unfold, Hsw. done.
  - cbn [find] in H. destruct (starts_with (a :: q) (b :: s)) eqn:Es; [done|].
    destruct (find (a :: q) s) eqn:Ef; [done|]. clear H.
    assert (Hsw : starts_with (a :: q) (b :: s ++ a :: q ++ u) = false).
    { cbn [starts_with] in *. destruct (N.eqb a b); [|done]. cbn in *.
      by apply starts_with_snoc_head. }
    rewrite find_unfold. cbn [app] in *. rewrite Hsw.
    cbn [length]. rewrite IH by done. done.
Qed.

Lemma thinking_open_split : thinking_open = 60%N :: lit "thinking>".
Proof. reflexivity. Qed.


Lemma find_open_app s u :
  find thinking_open s = None ->
  find thinking_open (s ++ thinking_open ++ u) = Some (length s).
Proof. rewrite thinking_open_split. apply find_app_first. vm_compute. set_solver. Qed.

Lemma find_app_skip p x m :
  (forall k, k < length x -> starts_with p (drop k x ++ m) = false) ->
  find p (x ++ m) = (fun i => length x + i) <$> find p m.
Proof.
  induction x as [|c x IH]; intros H.
  - cbn. by destruct (find p m).
  - rewrite find_unfold. cbn [app].
    pose proof (H 0 ltac:(cbn; lia)) as H0. cbn [drop app] in H0.
    rewrite H0, IH.
    + by destruct (find p m).
    + intros k Hk. apply (H (S k)). cbn. lia.
Qed.

Lemma find_close_after_open m :
  find thinking_close m = None -> find thinking_close (thinking_open ++ m) = None.
Proof.
  intros H. rewrite find_app_skip, H; [done|].
  intros k Hk. do 10 (destruct k as [|k]; [reflexivity|]). cbn in Hk. lia.
Qed.



(** Text without an opening tag passes through the filter unchanged, and
    the output of the filter never contains one; the same holds for the
    copy of the filter in handlers.rs. *)
Theorem filter_thinking_tags_no_tag (s : rstr) :
  (find thinking_open s = None ->
     Stream.filter_thinking_tags s = s /\ Handlers.filter_thinking_tags s = s)
  /\ find thinking_open (Stream.filter_thinking_tags s) = None
  /\ find thinking_open (Handlers.filter_thinking_tags s) = None.
Proof.
  rewrite (handlers_filter_eq s). split; [|split; apply stream_filter_no_open].
  intros H. unfold Stream.filter_thinking_tags. split; by apply stream_loop_done.
Qed.



(** An opening tag with no closing tag after it cuts the text there: the
    tag and everything after it are dropped. *)
Theorem filter_thinking_tags_unclosed (s m : rstr) :
  find thinking_open s = None -> find thinking_close m = None ->
  Stream.filter_thinking_tags (s ++ thinking_open ++ m) = s
  /\ Handlers.filter_thinking_tags (s ++ thinking_open ++ m) = s.
Proof.
  intros Hs Hm. rewrite (handlers_filter_eq (s ++ thinking_open ++ m)).
  assert (H : Stream.filter_thinking_tags (s ++ thinking_open ++ m) = s).
  { unfold Stream.filter_thinking_tags. cbn [Stream.filter_loop].
    rewrite (find_open_app _ _ Hs), drop_app_length, (find_close_after_open _ Hm).
    apply take_app_length. }
  done.
Qed.

Lemma filter_thinking_tags_unclosed_witness :
  Stream.filter_thinking_tags (lit "answer" ++ thinking_open ++ lit "draft") = lit "answer".
Proof.
  apply (filter_thinking_tags_unclosed (lit "answer") (lit "draft")); vm_compute; reflexivity.
Defined.

(** ** Token estimates *)

Lemma wrap_i32_small z : (i32_min <= z <= i32_max)%Z -> wrap_i32 z = z.
Proof.
  unfold wrap_i32, i32_min, i32_max. intros H.
  rewrite Z.mod_small; lia.
Qed.

Lemma filter_chinese_length text :
  length (filter (fun c => is_chinese c = true) text)
  + length (filter (fun c => is_chinese c = false) text) = length text.
Proof.
  induction text as [|c text IH]; [done|]. rewrite !filter_cons.
  repeat case_decide; cbn [length]; try congruence; destruct (is_chinese c); congruence || lia.
Qed.

Lemma estimate_fold text cc oc :
  (0 <= cc)%Z -> (0 <= oc)%Z -> (cc + oc + Z.of_nat (length text) <= i32_max)%Z ->
  fold_left (fun '(cc, oc) c =>
               if is_chinese c then (i32_add cc 1, oc) else (cc, i32_add oc 1))
            text (cc, oc)
  = (cc + Z.of_nat (length (filter (fun c => is_chinese c = true) text)),
     oc + Z.of_nat (length (filter (fun c => is_chinese c = false) text)))%Z.
Proof.
  revert cc oc. induction text as [|c text IH]; intros cc oc H1 H2 H3.
  - cbn. f_equal; lia.
  - cbn [fold_left]. rewrite !filter_cons. cbn [length] in H3.
    unfold i32_add. destruct (is_chinese c); repeat case_decide; try congruence;
      cbn [length].
    + rewrite wrap_i32_small by (unfold i32_min; lia).
      rewrite IH by lia. f_equal; lia.
    + rewrite wrap_i32_small by (unfold i32_min; lia).
      rewrite IH by lia. f_equal; lia.
Qed.

(** The token estimate of stream.rs (counted in [i32]) and the one of
    handlers.rs (counted in [usize]) agree on every text shorter than
    2^30 - 1 chars (longer ones can overflow the [i32] count): both are [max(1, (2c + 2) / 3 + (o + 3) / 4)] for [c] CJK
    unified ideographs (U+4E00 to U+9FFF) and [o] other chars. *)
Theorem estimate_tokens_agree (text : rstr) :
  (Z.of_nat (length text) < 2 ^ 30 - 1)%Z ->
  let c := Z.of_nat (length (filter (fun c => is_chinese c = true) text)) in
  let o := (Z.of_nat (length text) - c)%Z in
  estimate_tokens text = estimate_output_tokens text
  /\ estimate_tokens text = Z.max ((2 * c + 2) / 3 + (o + 3) / 4)%Z 1%Z.
Proof.
  intros Hl c o.
  pose proof (filter_chinese_length text) as Hf.
  assert (Ho : o = Z.of_nat (length (filter (fun c => is_chinese c = false) text)))
    by (subst o c; lia).
  assert (Hc : (0 <= c <= Z.of_nat (length text))%Z) by (subst c; lia).
  assert (Hob : (0 <= o <= Z.of_nat (length text))%Z) by (subst o; lia).
  assert (He : estimate_tokens text = Z.max ((2 * c + 2) / 3 + (o + 3) / 4) 1).
  { unfold estimate_tokens. rewrite estimate_fold by (unfold i32_max; lia).
    rewrite !Z.add_0_l, <- Ho. fold c.
    unfold i32_add, i32_mul, i32_div.
    rewrite (wrap_i32_small (c * 2)) by (unfold i32_min, i32_max; lia).
    rewrite (wrap_i32_small (c * 2 + 2)) by (unfold i32_min, i32_max; lia).
    rewrite (wrap_i32_small (o + 3)) by (unfold i32_min, i32_max; lia).
    rewrite !Z.quot_div_nonneg by lia.
    assert (0 <= (c * 2 + 2) / 3 <= 2 ^ 30)%Z.
    { split; [apply Z.div_pos; lia|]. apply Z.div_le_upper_bound; lia. }
    assert (0 <= (o + 3) / 4 <= 2 ^ 29)%Z.
    { split; [apply Z.div_pos; lia|]. apply Z.div_le_upper_bound; lia. }
    rewrite (wrap_i32_small ((c * 2 + 2) / 3)) by (unfold i32_min, i32_max; lia).
    rewrite (wrap_i32_small ((o + 3) / 4)) by (unfold i32_min, i32_max; lia).
    rewrite wrap_i32_small by (unfold i32_min, i32_max; lia).
    f_equal. f_equal; f_equal; lia. }
  split; [|exact He].
  rewrite He. unfold estimate_output_tokens, usize_as_i32.
  rewrite wrap_i32_small.
  - rewrite Nat2Z.inj_max, Nat2Z.inj_add, !Nat2Z.inj_div, Nat2Z.inj_add, Nat2Z.inj_mul,
      Nat2Z.inj_add, Nat2Z.inj_sub by lia.
    fold c. subst o. f_equal. f_equal; f_equal; lia.
  - rewrite Nat2Z.inj_max, Nat2Z.inj_add, !Nat2Z.inj_div, Nat2Z.inj_add, Nat2Z.inj_mul,
      Nat2Z.inj_add, Nat2Z.inj_sub by lia.
    fold c. unfold i32_min, i32_max.
    assert (0 <= (Z.of_nat (length text) - c + 3) / 4 <= 2 ^ 29)%Z.
    { split; [apply Z.div_pos; lia|]. apply Z.div_le_upper_bound; lia. }
    assert (0 <= (c * 2 + 2) / 3 <= 2 ^ 30)%Z.
    { split; [apply Z.div_pos; lia|]. apply Z.div_le_upper_bound; lia. }
    cbn -[Z.pow]. lia.
Qed.

Lemma estimate_tokens_agree_witness :
  (Z.of_nat (length (lit "hi " ++ [19968%N; 20108%N])) < 2 ^ 30 - 1)%Z
  /\ estimate_tokens (lit "hi " ++ [19968%N; 20108%N])
     = estimate_output_tokens (lit "hi " ++ [19968%N; 20108%N]).
Proof.
  split; [vm_compute; reflexivity|].
  apply (estimate_tokens_agree (lit "hi " ++ [19968%N; 20108%N])). vm_compute. reflexivity.
Defined.

(** ** Framing of the stream *)

Lemma process_kiro_event_frame ctx ev :
  frame (process_kiro_event ctx ev).1 = frame ctx.
Proof.
  destruct ctx, ev; cbn; try reflexivity.
  - unfold process_assistant_response. cbn. repeat case_match; reflexivity.
  - unfold process_tool_use. cbn. repeat case_match; simplify_eq; reflexivity.
  - case_bool_decide; reflexivity.
Qed.

(** A chunk produced for an event. *)
Definition event_chunk (f : rstr * rstr * Z * bool) (c : ChatCompletionChunk) : Prop :=
  chunk_roles c = [] /\ chunk_finish_reasons c = [] /\ chunk_usage c = None
  /\ chunk_id c = f.1.1.1 /\ chunk_model c = f.1.1.2 /\ chunk_created c = f.1.2.

Lemma process_kiro_event_chunks ctx ev :
  Forall (event_chunk (frame ctx)) (process_kiro_event ctx ev).2
  /\ concat (map chunk_text (process_kiro_event ctx ev).2) = event_text ev.
Proof.
  destruct ev as [content|tu|p|e m|et m|]; cbn [process_kiro_event event_text].
  - unfold process_assistant_response.
    remember (Stream.filter_thinking_tags content) as f eqn:Ef.
    destruct (is_empty content) eqn:E.
    + destruct content; [|done]. subst f. split; [constructor|reflexivity].
    + destruct (is_empty f) eqn:E'.
      * split; [constructor|]. by destruct f.
      * split; [constructor; [destruct ctx; repeat split|constructor]|]. cbn [snd map concat]. unfold chunk_text, stream_chunk. cbn. by rewrite !app_nil_r.
  - unfold process_tool_use. cbn. split; [|repeat case_match; reflexivity].
    repeat case_match; simplify_eq; repeat constructor; destruct ctx; cbn; reflexivity.
  - split; [constructor|reflexivity].
  - split; [constructor|reflexivity].
  - case_bool_decide; split; constructor || reflexivity.
  - split; [constructor|reflexivity].
Qed.

Lemma process_events_chunks ctx evs :
  frame (process_events ctx evs).1 = frame ctx
  /\ Forall (event_chunk (frame ctx)) (process_events ctx evs).2
  /\ concat (map chunk_text (process_events ctx evs).2) = concat (map event_text evs).
Proof.
  revert ctx. induction evs as [|ev evs IH]; intros ctx; [cbn; auto|].
  rewrite process_events_cons.
  pose proof (process_kiro_event_frame ctx ev) as Hf.
  pose proof (process_kiro_event_chunks ctx ev) as [Hc Ht].
  destruct (process_kiro_event ctx ev) as [ctx1 cs] eqn:E. cbn in Hf, Hc, Ht.
  specialize (IH ctx1). destruct (process_events ctx1 evs) as [ctx2 cs'] eqn:E2.
  cbn in *. rewrite Hf in IH. destruct IH as (IH1 & IH2 & IH3).
  split; [done|split].
  - by apply Forall_app.
  - by rewrite map_app, concat_app, Ht, IH3.
Qed.

Lemma stream_response_eq model it iu rid cr evs :
  let ctx1 := set_initial_sent (stream_context_new model it iu rid cr) true in
  stream_response model it iu rid cr evs =
  ((process_events ctx1 evs).1,
   stream_chunk ctx1 (mkDelta (Some (lit "assistant")) None None) None None true
   :: (process_events ctx1 evs).2 ++ generate_final_chunk (process_events ctx1 evs).1).
Proof. unfold stream_response. cbn. by destruct (process_events _ evs). Qed.

(** Whatever the events, a stream has exactly one chunk with a role, its
    first, with role "assistant"; the usage is sent only when
    [include_usage] is set, once, in the last chunk, which then has no
    choices and reports [get_usage] of the final context; and every chunk
    carries the id, model and creation time of the stream. *)
Theorem stream_response_framing model it iu rid cr evs :
  let '(ctx, cs) := stream_response model it iu rid cr evs in
  (exists c cs', cs = c :: cs' /\ chunk_roles c = [lit "assistant"])
  /\ concat (map chunk_roles cs) = [lit "assistant"]
  /\ omap chunk_usage cs = (if iu then [get_usage ctx] else [])
  /\ (iu = true -> exists cs' c, cs = cs' ++ [c]
                     /\ chunk_choices c = [] /\ chunk_usage c = Some (get_usage ctx))
  /\ Forall (fun c => chunk_id c = rid /\ chunk_model c = model /\ chunk_created c = cr) cs.
Proof.
  rewrite stream_response_eq. cbv zeta.
  set (ctx1 := set_initial_sent (stream_context_new model it iu rid cr) true).
  destruct (process_events_chunks ctx1 evs) as (Hf & Hc & _).
  set (ctxF := (process_events ctx1 evs).1) in *.
  set (cs := (process_events ctx1 evs).2) in *.
  assert (HF : frame ctxF = (rid, model, cr, iu)) by (rewrite Hf; reflexivity).
  assert (Hiu : include_usage ctxF = iu) by (unfold frame in HF; congruence).
  assert (Hr : concat (map chunk_roles cs) = [])
    by (clear -Hc; induction Hc as [|c l [Hc _] _ IH]; [done|]; cbn; by rewrite Hc, IH).
  assert (Hu : omap chunk_usage cs = [])
    by (clear -Hc; induction Hc as [|c l (_ & _ & Hc & _) _ IH]; [done|];
        cbn; by rewrite Hc, IH).
  destruct (generate_final_chunk_shape ctxF) as [fr Hg]. rewrite Hg, Hiu.
  split; [|split; [|split; [|split]]].
  - eexists _, _. split; [reflexivity|]. reflexivity.
  - cbn. rewrite map_app, concat_app, Hr. destruct iu; reflexivity.
  - change (omap chunk_usage (stream_chunk ctx1 (mkDelta (Some (lit "assistant")) None None)
              None None true :: cs ++ stream_chunk ctxF delta_default (Some fr) None true
              :: (if iu then [stream_chunk ctxF delta_default None (Some (get_usage ctxF)) false]
                  else [])) = if iu then [get_usage ctxF] else []).
    cbn [omap list_omap]. rewrite omap_app, Hu. destruct iu; reflexivity.
  - intros ->. eexists (_ :: cs ++ [_]), _. split.
    + cbn [app]. by rewrite <- app_assoc.
    + split; reflexivity.
  - unfold frame in HF. injection HF as H1 H2 H3 _.
    constructor; [done|]. apply Forall_app. split.
    + eapply Forall_impl; [exact Hc|]. intros c (_ & _ & _ & -> & -> & ->). done.
    + unfold stream_chunk. destruct iu; repeat constructor; cbn; congruence.
Qed.

(** Whatever the order of the events, exactly one chunk of a stream
    carries a [finish_reason], and it is "length" if a
    ContentLengthExceededException was seen, else "tool_calls" if a ToolUse
    was seen, else "stop". *)
Theorem stream_finish_reason_policy model it iu rid cr evs :
  concat (map chunk_finish_reasons (stream_response model it iu rid cr evs).2)
  = [spec_finish_reason evs].
Proof.
  destruct (stream_final_finish_reason model it iu rid cr evs) as [rest Hrest].
  rewrite stream_response_ctx in Hrest.
  rewrite stream_response_eq. cbv zeta.
  set (ctx1 := set_initial_sent (stream_context_new model it iu rid cr) true) in *.
  destruct (process_events_chunks ctx1 evs) as (Hf & Hc & _).
  assert (Hr : concat (map chunk_finish_reasons (process_events ctx1 evs).2) = [])
    by (clear -Hc; induction Hc as [|c l (_ & Hc & _) _ IH]; [done|]; cbn; by rewrite Hc, IH).
  destruct (generate_final_chunk_shape (process_events ctx1 evs).1) as [fr Hg].
  rewrite Hrest in Hg. injection Hg as <- Hg.
  cbn [snd map concat]. rewrite map_app, concat_app, Hr, Hrest, Hg.
  destruct (include_usage _); reflexivity.
Qed.

(** The text of a stream, read off its chunks in order, is the text of
    each AssistantResponse event filtered on its own: the filter never sees
    two events together, so a thinking block split over events is not
    recognised as one. *)
Theorem stream_response_text model it iu rid cr evs :
  concat (map chunk_text (stream_response model it iu rid cr evs).2)
  = concat (map event_text evs).
Proof.
  rewrite stream_response_eq. cbv zeta.
  set (ctx1 := set_initial_sent (stream_context_new model it iu rid cr) true).
  destruct (process_events_chunks ctx1 evs) as (_ & _ & Ht).
  destruct (generate_final_chunk_shape (process_events ctx1 evs).1) as [fr Hg].
  cbn [snd map concat]. rewrite Hg, map_app, concat_app, Ht.
  destruct (include_usage _); cbn; by rewrite !app_nil_r.
Qed.

(** ** Tool indices of the stream *)

Lemma process_kiro_event_tool_indices ctx ev :
  (tool_indices (process_kiro_event ctx ev).1, next_tool_index (process_kiro_event ctx ev).1) =
  match ev with
  | ToolUse tu =>
      match tool_indices ctx !! tu_tool_use_id tu with
      | Some _ => (tool_indices ctx, next_tool_index ctx)
      | None => (<[tu_tool_use_id tu := next_tool_index ctx]> (tool_indices ctx),
                 i32_add (next_tool_index ctx) 1)
      end
  | _ => (tool_indices ctx, next_tool_index ctx)
  end.
Proof.
  destruct ev as [content|tu|p|e m|et m|]; cbn [process_kiro_event].
  - unfold process_assistant_response.
    destruct (is_empty content); [reflexivity|].
    destruct (is_empty _); destruct ctx; reflexivity.
  - unfold process_tool_use. destruct ctx; cbn.
    repeat case_match; simplify_eq; reflexivity.
  - destruct ctx; reflexivity.
  - reflexivity.
  - case_bool_decide; [destruct ctx|]; reflexivity.
  - reflexivity.
Qed.

Definition tool_index_inv (ctx : StreamContext) (acc : list rstr) : Prop :=
  next_tool_index ctx = Z.of_nat (length acc) /\
  forall id i, tool_indices ctx !! id = Some i <-> (0 <= i)%Z /\ acc !! Z.to_nat i = Some id.

Lemma tool_index_inv_step ctx acc ev :
  (Z.of_nat (length acc) < i32_max)%Z ->
  tool_index_inv ctx acc ->
  tool_index_inv (process_kiro_event ctx ev).1 (first_seen_step acc ev).
Proof.
  intros Hb [Hn Hm].
  pose proof (process_kiro_event_tool_indices ctx ev) as E.
  unfold tool_index_inv.
  destruct ev as [content|tu|p|e m|et m|]; cbn [first_seen_step];
    try (pose proof (f_equal fst E) as E1; pose proof (f_equal snd E) as E2;
         cbn [fst snd] in E1, E2;
         split; [by rewrite E2|intros id i; rewrite E1; apply Hm]).
  set (id := tu_tool_use_id tu) in *.
  pose proof (f_equal fst E) as E1; pose proof (f_equal snd E) as E2. clear E.
  destruct (tool_indices ctx !! id) as [j|] eqn:Ej; cbn [fst snd] in E1, E2.
  - assert (id ∈ acc).
    { apply Hm in Ej as [_ Ej]. by eapply list_elem_of_lookup_2. }
    rewrite decide_True by done. split; [by rewrite E2|].
    intros k i. rewrite E1. apply Hm.
  - assert (Hnot : id ∉ acc).
    { intros [n Hn']%list_elem_of_lookup_1.
      assert (tool_indices ctx !! id = Some (Z.of_nat n)) as Hs
        by (apply Hm; rewrite Nat2Z.id; split; [lia|done]).
      congruence. }
    rewrite decide_False by done. split.
    + rewrite E2, Hn, length_app. cbn [length]. unfold i32_add.
      rewrite wrap_i32_small; unfold i32_min, i32_max in *; lia.
    + intros k i. rewrite E1, Hn.
      destruct (decide (k = id)) as [->|Hk].
      * rewrite lookup_insert_eq. split.
        -- intros [= <-]. rewrite Nat2Z.id, lookup_app_r, Nat.sub_diag by lia.
           split; [lia|done].
        -- intros [Hi Hl]. f_equal.
           destruct (decide (Z.to_nat i < length acc)) as [Hlt|Hge].
           ++ rewrite lookup_app_l in Hl by done.
              exfalso. apply Hnot. by eapply list_elem_of_lookup_2.
           ++ rewrite lookup_app_r in Hl by lia.
              apply lookup_lt_Some in Hl as Hlen. cbn in Hlen. lia.
      * rewrite lookup_insert_ne by congruence. rewrite Hm. split.
        -- intros [Hi Hl]. split; [done|]. rewrite lookup_app_l; [done|].
           by eapply lookup_lt_Some.
        -- intros [Hi Hl]. split; [done|].
           destruct (decide (Z.to_nat i < length acc)) as [Hlt|Hge].
           ++ by rewrite lookup_app_l in Hl.
           ++ rewrite lookup_app_r in Hl by lia.
              destruct (Z.to_nat i - length acc) as [|?]; cbn in Hl; simplify_eq.
Qed.

Lemma first_seen_step_length acc ev :
  length (first_seen_step acc ev) <= S (length acc).
Proof.
  destruct ev; cbn; try lia. case_decide; rewrite ?length_app; cbn; lia.
Qed.

Lemma tool_index_inv_events ctx acc evs :
  (Z.of_nat (length acc + length evs) < i32_max)%Z ->
  tool_index_inv ctx acc ->
  tool_index_inv (process_events ctx evs).1 (fold_left first_seen_step evs acc).
Proof.
  revert ctx acc. induction evs as [|ev evs IH]; intros ctx acc Hb Hi; [done|].
  rewrite process_events_cons. cbn [fold_left].
  pose proof (tool_index_inv_step ctx acc ev) as Hs.
  pose proof (first_seen_step_length acc ev) as Hl.
  destruct (process_kiro_event ctx ev) as [ctx1 cs] eqn:E. cbn [fst] in Hs.
  destruct (process_events ctx1 evs) as [ctx2 cs'] eqn:E2.
  specialize (IH ctx1 (first_seen_step acc ev)). rewrite E2 in IH. cbn in *.
  apply IH; [lia|]. apply Hs; [lia|done].
Qed.

(** As long as a stream has fewer than i32::MAX events, the tool indices it
    hands out are 0, 1, ..., n-1, given to the distinct tool_use_ids in the
    order in which they are first seen: the i-th new id gets index i, and
    an id seen again keeps its index; next_tool_index ends at n. *)
Theorem stream_tool_indices model it iu rid cr evs
    (H : (Z.of_nat (length evs) < i32_max)%Z) :
  let ctx := (stream_response model it iu rid cr evs).1 in
  next_tool_index ctx = Z.of_nat (length (tool_ids_seen evs)) /\
  forall id i, tool_indices ctx !! id = Some i <->
               (0 <= i)%Z /\ tool_ids_seen evs !! Z.to_nat i = Some id.
Proof.
  cbv zeta. rewrite stream_response_ctx. unfold tool_ids_seen.
  apply tool_index_inv_events; [done|].
  split; [reflexivity|]. intros id i. cbn. rewrite lookup_empty. split.
  - done.
  - intros [_ Hl]. by rewrite lookup_nil in Hl.
Qed.

Lemma stream_tool_indices_witness :
  (Z.of_nat (length [ToolUse (mkToolUseEvent (lit "f") (lit "t1") [] false);
                     ToolUse (mkToolUseEvent (lit "g") (lit "t2") [] true)]) < i32_max)%Z /\
  let ctx := (stream_response (lit "m") 0 false (lit "r") 0
               [ToolUse (mkToolUseEvent (lit "f") (lit "t1") [] false);
                ToolUse (mkToolUseEvent (lit "g") (lit "t2") [] true)]).1 in
  next_tool_index ctx = Z.of_nat (length (tool_ids_seen
               [ToolUse (mkToolUseEvent (lit "f") (lit "t1") [] false);
                ToolUse (mkToolUseEvent (lit "g") (lit "t2") [] true)])) /\
  forall id i, tool_indices ctx !! id = Some i <->
               (0 <= i)%Z /\ tool_ids_seen
               [ToolUse (mkToolUseEvent (lit "f") (lit "t1") [] false);
                ToolUse (mkToolUseEvent (lit "g") (lit "t2") [] true)] !! Z.to_nat i = Some id.
Proof.
  split; [unfold i32_max; cbn; lia|].
  apply stream_tool_indices. unfold i32_max; cbn; lia.
Defined.

(** ** Non-streaming collector *)

Lemma collect_events_text evs :
  text_content (fold_left collect_event evs collector_init) = concat (map collected_text evs).
Proof.
  induction evs as [|ev evs IH] using rev_ind; [reflexivity|].
  rewrite fold_left_app, map_app, concat_app. cbn [fold_left map concat].
  destruct (fold_left collect_event evs collector_init) as [t tcs fr cit ot bufs].
  cbn in IH. subst t. destruct ev; cbn; rewrite ?app_nil_r; try reflexivity.
Qed.

Lemma tool_uses_with_snoc id evs ev :
  tool_uses_with id (evs ++ [ev]) =
  tool_uses_with id evs ++
  match ev with ToolUse tu => if decide (tu_tool_use_id tu = id) then [tu] else [] | _ => [] end.
Proof.
  unfold tool_uses_with. rewrite omap_app, filter_app. f_equal.
  destruct ev; cbn; try reflexivity.
Qed.

Lemma collect_events_buffers evs id :
  tool_json_buffers (fold_left collect_event evs collector_init) !! id = accumulated_call id evs.
Proof.
  induction evs as [|ev evs IH] using rev_ind; [reflexivity|].
  rewrite fold_left_app. unfold accumulated_call. rewrite tool_uses_with_snoc.
  fold (accumulated_call id evs) in *.
  destruct (fold_left collect_event evs collector_init) as [t tcs fr cit ot bufs].
  cbn in IH. destruct ev as [content|tu|p|e m|et m|]; cbn [fold_left collect_event];
    rewrite ?app_nil_r; try (case_bool_decide; cbn); try exact IH.
  cbn. destruct (decide (tu_tool_use_id tu = id)) as [<-|Hne].
  - rewrite lookup_insert_eq, IH. unfold accumulated_call.
    destruct (tool_uses_with _ evs) as [|t0 l]; cbn.
    + by rewrite !app_nil_r.
    + by rewrite map_app, concat_app; cbn; rewrite app_nil_r, app_assoc.
  - rewrite lookup_insert_ne by done. rewrite app_nil_r. exact IH.
Qed.

Lemma collect_events_tool_calls_snoc evs ev :
  col_tool_calls (fold_left collect_event (evs ++ [ev]) collector_init) =
  col_tool_calls (fold_left collect_event evs collector_init) ++
  match ev with
  | ToolUse tu =>
      let same := tool_uses_with (tu_tool_use_id tu) evs ++ [tu] in
      if tu_stop tu
      then [mkToolCall (tu_tool_use_id tu) (lit "function")
              (mkFunctionCall (tu_name (hd tu same)) (concat (map tu_input same)))]
      else []
  | _ => []
  end.
Proof.
  pose proof (collect_events_buffers evs) as Hb.
  rewrite fold_left_app. cbn [fold_left].
  destruct (fold_left collect_event evs collector_init) as [t tcs fr cit ot bufs].
  cbn in Hb. destruct ev as [content|tu|p|e m|et m|]; cbn [collect_event];
    try (case_bool_decide); cbn; rewrite ?app_nil_r; try reflexivity.
  rewrite Hb. unfold accumulated_call.
  destruct (tool_uses_with _ evs) as [|t0 l]; cbn;
    destruct (tu_stop tu); rewrite ?map_app, ?concat_app; cbn; rewrite ?app_nil_r, <- ?app_assoc; try reflexivity.
Qed.

Lemma collect_events_no_calls evs :
  col_tool_calls (fold_left collect_event evs collector_init) = [] <->
  Forall (fun tu => tu_stop tu = false) (omap tool_use_of evs).
Proof.
  induction evs as [|ev evs IH] using rev_ind; [split; by constructor|].
  rewrite collect_events_tool_calls_snoc, omap_app, Forall_app.
  destruct ev as [content|tu|p|e m|et m|]; cbn [omap list_omap tool_use_of];
    rewrite ?app_nil_r; try (rewrite IH; split; [intros H; split; [done|constructor]|tauto]).
  cbn. destruct (tu_stop tu) eqn:Es.
  - split; [intros H; by apply app_eq_nil in H as [_ ?]|intros [_ H]; inversion H; congruence].
  - rewrite app_nil_r, IH, Forall_singleton. tauto.
Qed.

(** The non-streaming response has one choice, whose content is the
    concatenation of the AssistantResponse contents, each filtered on its
    own, or null when that is empty; its tool_calls is null exactly when no
    ToolUse event had stop set. *)
Theorem non_stream_response_message model it id cr evs :
  exists tcs fr,
  resp_choices (non_stream_response model it id cr evs) =
    [mkChoice 0 (mkResponseMessage (lit "assistant")
                   (let t := concat (map collected_text evs) in
                    if is_empty t then None else Some t) tcs) fr]
  /\ (tcs = None <-> Forall (fun tu => tu_stop tu = false) (omap tool_use_of evs)).
Proof.
  unfold non_stream_response. rewrite collect_events_text.
  pose proof (collect_events_no_calls evs) as Hc.
  eexists _, _. split; [reflexivity|].
  rewrite <- Hc. destruct (col_tool_calls _); split; done.
Qed.

(** A ToolUse event with stop set appends one tool call to the non-streaming
    response: its id, the name of the first event with that tool_use_id and
    as arguments the inputs of all events with that id so far, this one
    included, concatenated (an id used again after its stop keeps
    accumulating); a ToolUse without stop, and any other event, appends
    nothing. *)
Theorem non_stream_tool_call evs ev :
  col_tool_calls (fold_left collect_event (evs ++ [ev]) collector_init) =
  col_tool_calls (fold_left collect_event evs collector_init) ++
  match ev with
  | ToolUse tu =>
      let same := tool_uses_with (tu_tool_use_id tu) evs ++ [tu] in
      if tu_stop tu
      then [mkToolCall (tu_tool_use_id tu) (lit "function")
              (mkFunctionCall (tu_name (hd tu same)) (concat (map tu_input same)))]
      else []
  | _ => []
  end.
Proof. apply collect_events_tool_calls_snoc. Qed.

(** ** Converter *)

Lemma collect_names_fold (l : list ToolUseEntry) acc :
  NoDup acc ->
  let r := fold_left (fun names tu =>
               if bool_decide (tue_name tu ∈ names) then names else names ++ [tue_name tu])
             l acc in
  NoDup r /\ forall n, n ∈ r <-> n ∈ acc \/ exists tu, tu ∈ l /\ tue_name tu = n.
Proof.
  revert acc. induction l as [|tu l IH]; intros acc Hnd; cbn [fold_left].
  - split; [done|]. intros n. split; [by left|]. intros [?|(tu & Htu & _)]; [done|].
    by apply not_elem_of_nil in Htu.
  - case_bool_decide as Hin.
    + destruct (IH acc Hnd) as [H1 H2]. split; [done|]. intros n. rewrite H2. split.
      * intros [?|(t & ? & ?)]; [by left|right; exists t; split; [by right|done]].
      * intros [?|(t & Ht & <-)]; [by left|].
        apply elem_of_cons in Ht as [->|Ht]; [by left|right; by exists t].
    + assert (Hnd' : NoDup (acc ++ [tue_name tu])).
      { apply NoDup_app. split; [done|split; [|apply NoDup_singleton]].
        intros x Hx ->%list_elem_of_singleton. done. }
      destruct (IH _ Hnd') as [H1 H2]. split; [done|]. intros n. rewrite H2, elem_of_app,
        list_elem_of_singleton. split.
      * intros [[?| ->]|(t & ? & ?)]; [by left|right; exists tu; split; [left|]; done|].
        right; exists t; split; [by right|done].
      * intros [?|(t & Ht & <-)]; [by left; left|].
        apply elem_of_cons in Ht as [->|Ht]; [by left; right|right; by exists t].
Qed.

(** The names of the tools used in a history, as collected for the
    placeholders: each name once, and exactly the names of the tool uses of
    its assistant messages. *)
Theorem collect_history_tool_names_spec h :
  NoDup (collect_history_tool_names h)
  /\ forall n, n ∈ collect_history_tool_names h <->
               exists tu, tu ∈ concat (map message_tool_uses h) /\ tue_name tu = n.
Proof.
  destruct (collect_names_fold (concat (map message_tool_uses h)) [] (NoDup_nil_2))
    as [H1 H2].
  split; [exact H1|]. intros n. unfold collect_history_tool_names. rewrite H2.
  split; [intros [H|H]; [by apply not_elem_of_nil in H|done]|by right].
Qed.


Lemma process_message_last jf mid n st i m st' :
  process_message jf mid n st i m = Ok st' ->
  if role_is m "user" && Nat.eqb i (n - 1)
  then extract_content_with_images (cm_content m) = Ok (last_user_content st', last_images st')
  else (last_user_content st', last_images st') = (last_user_content st, last_images st).
Proof.
  destruct st as [sc h luc li trs ub]. unfold process_message.
  destruct (role_is m "system") eqn:Es.
  - intros [= <-]. destruct (role_is m "user") eqn:Eu; cbn [andb]; [|reflexivity].
    exfalso. unfold role_is in Es, Eu. apply bool_decide_eq_true in Es, Eu.
    rewrite Eu in Es. by vm_compute in Es.
  - destruct (role_is m "user") eqn:Eu; cbn [andb].
    + destruct (extract_content_with_images (cm_content m)) as [[text images]|e] eqn:Ex;
        cbn; [|done].
      destruct (Nat.eqb i (n - 1)); intros [= <-]; done.
    + destruct (role_is m "assistant").
      * destruct (bool_decide (ub = [])); cbn;
          destruct (convert_assistant_message jf m); cbn; try done; intros [= <-]; done.
      * destruct (role_is m "tool"); [destruct (tool_call_id m)|]; intros [= <-]; done.
Qed.

Lemma process_loop_last jf mid n msgs : forall st i st',
  process_loop jf mid n st i msgs = Ok st' -> i + length msgs = n ->
  match last msgs with
  | Some m =>
      if role_is m "user"
      then extract_content_with_images (cm_content m) = Ok (last_user_content st', last_images st')
      else (last_user_content st', last_images st') = (last_user_content st, last_images st)
  | None => (last_user_content st', last_images st') = (last_user_content st, last_images st)
  end.
Proof.
  induction msgs as [|m msgs IH]; intros st i st' H Hn; cbn in H.
  - by injection H as <-.
  - destruct (process_message jf mid n st i m) as [st1|e] eqn:E; cbn in H; [|done].
    apply process_message_last in E. cbn [length] in Hn.
    destruct msgs as [|m' msgs'].
    + cbn in H, Hn. injection H as <-. cbn [last].
      replace (Nat.eqb i (n - 1)) with true in E by (symmetry; apply Nat.eqb_eq; lia).
      rewrite andb_true_r in E. exact E.
    + replace (Nat.eqb i (n - 1)) with false in E
        by (symmetry; apply Nat.eqb_neq; cbn in Hn; lia).
      rewrite andb_false_r in E.
      specialize (IH st1 (S i) st' H ltac:(lia)).
      change (last (m :: m' :: msgs')) with (last (m' :: msgs')).
      destruct (last (m' :: msgs')) as [ml|]; [|congruence].
      destruct (role_is ml "user"); congruence.
Qed.

(** The current message of a converted request comes from its last
    message only: if that is a user message, its text and images are those
    extracted from it; otherwise the content is empty and there are no
    images, whatever user messages came before. *)
Theorem convert_request_current_message jf cid aid req r :
  convert_request jf cid aid req = Ok r ->
  let cm := current_message (conversation_state r) in
  match last (messages req) with
  | Some m =>
      if role_is m "user"
      then extract_content_with_images (cm_content m) = Ok (uim_content cm, unwrap_or (uim_images cm) [])
      else uim_content cm = [] /\ uim_images cm = None
  | None => False
  end.
Proof.
  unfold convert_request. intros H.
  destruct (map_model (req_model req)) as [mid|] eqn:Em; [|by apply map_model_Some_is in Em].
  cbn in H. case_bool_decide as Hne; [done|].
  destruct (process_messages jf (messages req) mid) as [x|e'] eqn:Ep; cbn in H; [|done].
  destruct x as [[[[sc h] luc] li] trs]. cbn in H. injection H as <-. cbn.
  unfold process_messages in Ep.
  destruct (process_loop _ _ _ _ _ _) as [st|e] eqn:El; cbn in Ep; [|done].
  injection Ep as _ _ Hl Hi _.
  apply process_loop_last in El; [|lia]. cbn in El.
  destruct (last (messages req)) as [m|] eqn:Elast;
    [|by apply last_None in Elast].
  rewrite <- Hl, <- Hi.
  destruct (role_is m "user").
  - rewrite El. by case_bool_decide as Hli; [rewrite Hli|].
  - by injection El as -> ->.
Qed.

Lemma convert_request_current_message_witness :
  exists r, convert_request (fun _ => None) (lit "conv") (lit "agent") assistant_first_request = Ok r
  /\ let cm := current_message (conversation_state r) in
     match last (messages assistant_first_request) with
     | Some m =>
         if role_is m "user"
         then extract_content_with_images (cm_content m) = Ok (uim_content cm, unwrap_or (uim_images cm) [])
         else uim_content cm = [] /\ uim_images cm = None
     | None => False
     end.
Proof.
  eexists. split; [vm_compute; reflexivity|].
  apply (convert_request_current_message (fun _ => None) (lit "conv") (lit "agent")
           assistant_first_request).
  vm_compute. reflexivity.
Defined.



Lemma extract_fold parts texts images :
  fold_left (fun acc part =>
      '(texts, images) ← acc;
      match part with
      | PartText t => Ok (texts ++ [t], images)
      | PartImageUrl iu =>
          img ← parse_image_url (url iu);
          Ok (texts, match img with Some im => images ++ [im] | None => images end)
      end) parts (Ok (texts, images))
  = (ims ← parse_images parts;
     Ok (texts ++ omap (fun p => match p with PartText t => Some t | _ => None end) parts,
         images ++ ims)).
Proof.
  revert texts images. induction parts as [|[t|iu] parts IH]; intros texts images; cbn.
  - by rewrite !app_nil_r.
  - rewrite IH. cbn. destruct (parse_images parts); cbn; [by rewrite <- app_assoc|done].
  - destruct (parse_image_url (url iu)) as [img|e]; cbn.
    + rewrite IH. destruct (parse_images parts) as [ims|e]; cbn; [|done].
      destruct img; cbn; [by rewrite <- app_assoc|done].
    + clear IH. induction parts as [|p parts IH']; cbn; [done|]. exact IH'.
Qed.

(** Extracting the content of a message made of parts gives the same text
    as [extract_text_content] (the text parts joined with newlines) and the
    images of its image parts in order, http(s) URLs dropped; it fails, with
    the first URL that does not parse, as soon as one image URL is
    rejected, whatever the text. *)
Theorem extract_content_with_images_parts parts :
  extract_content_with_images (Some (Parts parts)) =
  (ims ← parse_images parts; Ok (extract_text_content (Some (Parts parts)), ims)).
Proof.
  unfold extract_content_with_images. rewrite extract_fold.
  destruct (parse_images parts); reflexivity.
Qed.





